(** * Optimal trading thresholds for an Ornstein-Uhlenbeck spread (Bertram 2010)

    A shallow embedding of
    [arbitragelab/time_series_approach/ou_optimal_threshold_Bertram.py],
    class [OUModelOptimalThresholdBertram].

    Modelling conventions.
    - A Python/NumPy double is a real number: rounding, underflow and
      overflow are not modelled, and neither is the [OverflowError] that
      Python's [**] raises when a power of two floats overflows.  Where IEEE
      arithmetic leaves the finite numbers (a NumPy division by zero,
      [np.sqrt] of a negative number) the model yields [NonFinite] and follows
      the evaluation no further, also where the code would go on from the
      [nan] or [inf] and raise later.
    - A Python exception is the outcome [Raise e].  The only exception the
      model follows is [ZeroDivisionError], from the division of two Python
      floats.  The model parameters [mu], [theta],
      [sigma] are Python floats stored on [self]; whatever comes out of
      [np.sqrt] or [scipy.special.erfi] is a NumPy scalar, whose division
      warns and returns [inf] or [nan] instead of raising.
    - [scipy.special.erfi] is the imaginary error function, defined below by
      its power series.  [mpmath.nsum] is the sum of the series it is given.
      [mpmath.gamma], [mpmath.digamma] and the two SciPy solvers are
      parameters of the development. *)

From Stdlib Require Import Reals Lra Lia ZArith Epsilon FunctionalExtensionality.
From Stdlib Require Import String List.
Import ListNotations.

Open Scope R_scope.

(** ** Outcomes of a Python evaluation *)

(** [ZeroDivisionError] is Python's.  The other three are the error kinds of
    the specification; the source defines none of them. *)
Inductive exn : Set :=
| ZeroDivisionError
| DomainError
| NumericalError
| ConvergenceError.

Inductive outcome (A : Type) : Type :=
| Ret (v : A)
| NonFinite
| Raise (e : exn).

Arguments Ret {A} v.
Arguments NonFinite {A}.
Arguments Raise {A} e.

Definition bind {A B : Type} (c : outcome A) (k : A -> outcome B) : outcome B :=
  match c with
  | Ret v => k v
  | NonFinite => NonFinite
  | Raise e => Raise e
  end.

Definition omap {A B : Type} (f : A -> B) (c : outcome A) : outcome B :=
  bind c (fun v => Ret (f v)).

Declare Scope outcome_scope.
Delimit Scope outcome_scope with outcome.
Notation "x <- c ;; k" := (bind c (fun x => k))
  (at level 61, c at next level, right associativity) : outcome_scope.
Open Scope outcome_scope.

(** [x / y] on two Python floats. *)
Definition py_div (x y : R) : outcome R :=
  if Req_dec_T y 0 then Raise ZeroDivisionError else Ret (x / y).

(** [x / y] when one operand is a NumPy scalar. *)
Definition np_div (x y : R) : outcome R :=
  if Req_dec_T y 0 then NonFinite else Ret (x / y).

(** [np.sqrt(x)]. *)
Definition np_sqrt (x : R) : outcome R :=
  if Rlt_dec x 0 then NonFinite else Ret (sqrt x).

(** ** The imaginary error function

    [erfi x = 2/sqrt(pi) * sum_{n>=0} x^(2n+1) / (n! (2n+1))], written as
    [x] times a series in [x^2], the way the Standard Library defines [sin]. *)

Definition erfi_coef (n : nat) : R := / (INR (fact n) * INR (2 * n + 1)).

Definition erfi_term (y : R) (n : nat) : R := erfi_coef n * y ^ n.

Lemma erfi_coef_pos n : 0 < erfi_coef n.
Proof.
  unfold erfi_coef. apply Rinv_0_lt_compat, Rmult_lt_0_compat.
  - apply INR_fact_lt_0.
  - apply lt_0_INR. lia.
Qed.

Lemma erfi_coef_le_exp n : erfi_coef n <= / INR (fact n).
Proof.
  unfold erfi_coef.
  assert (Hf := INR_fact_lt_0 n).
  assert (Hk : 1 <= INR (2 * n + 1)) by (apply (le_INR 1); lia).
  apply Rinv_le_contravar; nra.
Qed.

Lemma erfi_term_nonneg y n : 0 <= y -> 0 <= erfi_term y n.
Proof.
  intros Hy. unfold erfi_term.
  apply Rmult_le_pos; [left; apply erfi_coef_pos | now apply pow_le].
Qed.

Lemma erfi_series_cv (y : R) :
  0 <= y -> { l : R | Un_cv (fun N => sum_f_R0 (erfi_term y) N) l }.
Proof.
  intros Hy.
  apply Rseries_CV_comp with (Bn := fun i => / INR (fact i) * y ^ i).
  - intros n. split; [now apply erfi_term_nonneg |].
    unfold erfi_term. apply Rmult_le_compat_r; [now apply pow_le |].
    apply erfi_coef_le_exp.
  - destruct (exist_exp y) as [l Hl]. exists l. exact Hl.
Defined.

Definition erfi_sum (x : R) : R := proj1_sig (erfi_series_cv (x * x) (Rle_0_sqr x)).

Definition erfi (x : R) : R := 2 / sqrt PI * (x * erfi_sum x).

(** ** [mpmath.nsum] and [mpmath.fac]

    [nsum f lo] is [mpmath.nsum(f, [lo, inf])]: the sum of [f lo + f (lo+1) + ...]
    when that series converges (and some number otherwise, as [nsum] returns
    an estimate in every case). *)

Definition series_from (f : nat -> R) (lo : nat) : nat -> R := fun n => f (lo + n)%nat.

Definition nsum (f : nat -> R) (lo : nat) : R :=
  epsilon (inhabits 0) (infinite_sum (series_from f lo)).

Definition fac (k : nat) : R := INR (fact k).

(** ** The model instance *)

(** The parameters that the parent class [OUModelOptimalThreshold] stores on
    [self]. *)
Record OUModel : Set := { mu : R; theta : R; sigma : R }.

(** What the solvers of [scipy.optimize] report next to the point they stopped
    at.  [ier] is MINPACK's flag ([1]: converged; [2]: [maxfev] calls reached;
    [3], [4], [5]: no further progress); [success] is [False] when Nelder-Mead
    used up [maxiter] or [maxfev]. *)
Record RootResult : Set := { root_x : R; ier : Z }.
Record OptimizeResult : Set := { sol_x : R; success : bool }.

Section Bertram.

(** [mpmath.gamma] and [mpmath.digamma]. *)
Variable gamma digamma : R -> R.

(** MINPACK's [hybrd] behind [optimize.fsolve], and the Nelder-Mead simplex
    behind [optimize.minimize(..., method="Nelder-Mead")]. *)
Variable _hybrd : (R -> outcome R) -> R -> outcome RootResult.
Variable _minimize_neldermead : (R -> outcome R) -> R -> outcome OptimizeResult.

(** [optimize.fsolve(func, x0)[0]]: without [full_output] the flag [ier] only
    decides whether a [RuntimeWarning] is printed. *)
Definition fsolve (func : R -> outcome R) (x0 : R) : outcome R :=
  r <- _hybrd func x0 ;; Ret (root_x r).

(** [optimize.minimize(fun, x0, method="Nelder-Mead")]. *)
Definition minimize (func : R -> outcome R) (x0 : R) : outcome OptimizeResult :=
  _minimize_neldermead func x0.

Variable self : OUModel.

Definition _erfi_scaler (const : R) : outcome R :=
  s <- np_sqrt (mu self) ;;
  q <- np_div ((const - theta self) * s) (sigma self) ;;
  Ret (erfi q).

Definition expected_trade_length (a m : R) : outcome R :=
  k <- py_div PI (mu self) ;;
  em <- _erfi_scaler m ;;
  ea <- _erfi_scaler a ;;
  Ret (k * (em - ea)).

Definition common_term (const : R) (k : nat) : R :=
  gamma (INR k / 2) * (1.414 * const) ^ k / fac k.

Definition _w1 (const : R) : R :=
  let term_1 := (nsum (common_term const) 1 / 2) ^ 2 in
  let term_2 := (nsum (fun k => common_term const k * (-1) ^ k) 1 / 2) ^ 2 in
  term_1 - term_2.

Definition middle_term (const : R) (k : nat) : R :=
  (digamma ((2 * INR k - 1) / 2) - digamma 1) * gamma ((2 * INR k - 1) / 2)
  * (1.414 * const) ^ (2 * k - 1) / fac (2 * k - 1).

Definition _w2 (const : R) : R := nsum (middle_term const) 1.

Definition trade_length_variance (a m : R) : outcome R :=
  s_1 <- np_sqrt (2 * mu self) ;;
  const_1 <- np_div ((m - theta self) * s_1) (sigma self) ;;
  s_2 <- np_sqrt (2 * mu self) ;;
  const_2 <- np_div ((a - theta self) * s_2) (sigma self) ;;
  let term_1 := _w1 const_1 - _w1 const_2 - _w2 const_1 + _w2 const_2 in
  let term_2 := (mu self) ^ 2 in
  py_div term_1 term_2.

Definition expected_return (a m c : R) : outcome R :=
  t <- expected_trade_length a m ;;
  np_div (m - a - c) t.

Definition return_variance (a m c : R) : outcome R :=
  v <- trade_length_variance a m ;;
  t <- expected_trade_length a m ;;
  np_div ((m - a - c) ^ 2 * v) (t ^ 3).

Definition sharpe_ratio (a m c rf : R) : outcome R :=
  t <- expected_trade_length a m ;;
  r <- np_div rf t ;;
  er <- expected_return a m c ;;
  rv <- return_variance a m c ;;
  s <- np_sqrt rv ;;
  np_div (er - r) s.

(** Equation (13) of the paper, the [lambda] handed to [fsolve]. *)
Definition equation (c a : R) : outcome R :=
  q <- np_div (mu self * (a - theta self) ^ 2) ((sigma self) ^ 2) ;;
  k <- py_div PI (mu self) ;;
  s <- np_sqrt k ;;
  e <- _erfi_scaler a ;;
  Ret (exp q * (2 * (a - theta self) + c) - sigma self * s * e).

Definition get_threshold_by_maximize_expected_return (c : R) : outcome (R * R) :=
  let initial_guess := theta self - c - 1e-2 in
  root <- fsolve (equation c) initial_guess ;;
  Ret (root, 2 * theta self - root).

(** The [lambda] handed to [minimize]; [np.vectorize] maps it over the points
    of the simplex and changes no value. *)
Definition negative_sharpe_ratio (c rf a : R) : outcome R :=
  s <- sharpe_ratio a (2 * theta self - a) c rf ;;
  Ret (-1 * s).

Definition get_threshold_by_maximize_sharpe_ratio (c rf : R) : outcome (R * R) :=
  let initial_guess := theta self - rf - c in
  r <- minimize (negative_sharpe_ratio c rf) initial_guess ;;
  let sol := sol_x r in
  Ret (sol, 2 * theta self - sol).

End Bertram.

(** ** The plotting wrappers

    The four [plot_*] methods sweep a list of costs or of risk-free rates
    through an optimizer and hand the collected values to Matplotlib.  A
    figure is modelled by what was drawn on it: its lines and its three
    labels.  [ValueError] is what [np.vectorize] raises on inputs of size zero
    and what [plt.plot] raises on data of different lengths. *)

Inductive result (A : Type) : Type :=
| Done (v : A)
| Untracked
| Raised (e : exn)
| RaisedValueError.

Arguments Done {A} v.
Arguments Untracked {A}.
Arguments Raised {A} e.
Arguments RaisedValueError {A}.

(** An evaluation of the class inside a wrapper; a non-finite number is not
    followed further there either. *)
Definition lift {A : Type} (c : outcome A) : result A :=
  match c with
  | Ret v => Done v
  | NonFinite => Untracked
  | Raise e => Raised e
  end.

Definition rbind {A B : Type} (c : result A) (k : A -> result B) : result B :=
  match c with
  | Done v => k v
  | Untracked => Untracked
  | Raised e => Raised e
  | RaisedValueError => RaisedValueError
  end.

Declare Scope result_scope.
Delimit Scope result_scope with result.
Notation "x <~ c ;; k" := (rbind c (fun x => k))
  (at level 61, c at next level, right associativity) : result_scope.
Open Scope result_scope.

Record Line2D : Set := { xdata : list R; ydata : list R }.

Record Figure : Set :=
  { lines : list Line2D; title : string; ylabel : string; xlabel : string }.

(** [plt.figure()]. *)
Definition plt_figure : Figure :=
  {| lines := []; title := ""; ylabel := ""; xlabel := "" |}.

(** [plt.plot(x, y)] on the current figure. *)
Definition plt_plot (fig : Figure) (xs ys : list R) : result Figure :=
  if Nat.eqb (length xs) (length ys)
  then Done {| lines := lines fig ++ [{| xdata := xs; ydata := ys |}];
               title := title fig; ylabel := ylabel fig; xlabel := xlabel fig |}
  else RaisedValueError.

(** [plt.title(s)], [plt.ylabel(s)], [plt.xlabel(s)]. *)
Definition plt_title (fig : Figure) (s : string) : Figure :=
  {| lines := lines fig; title := s; ylabel := ylabel fig; xlabel := xlabel fig |}.

Definition plt_ylabel (fig : Figure) (s : string) : Figure :=
  {| lines := lines fig; title := title fig; ylabel := s; xlabel := xlabel fig |}.

Definition plt_xlabel (fig : Figure) (s : string) : Figure :=
  {| lines := lines fig; title := title fig; ylabel := ylabel fig; xlabel := s |}.

(** NumPy broadcasting of a one-dimensional input to length [n]. *)
Definition broadcast (n : nat) (xs : list R) : option (list R) :=
  if Nat.eqb (length xs) n then Some xs
  else match xs with
       | [x0] => Some (repeat x0 n)
       | _ => None
       end.

Fixpoint vectorize_loop (func : R -> R -> R -> outcome R) (xs ys zs : list R)
  : result (list R) :=
  match xs, ys, zs with
  | x0 :: xs', y0 :: ys', z0 :: zs' =>
      v <~ lift (func x0 y0 z0) ;;
      vs <~ vectorize_loop func xs' ys' zs' ;;
      Done (v :: vs)
  | _, _, _ => Done []
  end.

(** [np.vectorize(func)(xs, ys, zs)], without [otypes]. *)
Definition np_vectorize (func : R -> R -> R -> outcome R) (xs ys zs : list R)
  : result (list R) :=
  match xs, ys, zs with
  | [], _, _ | _, [], _ | _, _, [] => RaisedValueError
  | _, _, _ =>
      let n := Nat.max (length xs) (Nat.max (length ys) (length zs)) in
      match broadcast n xs, broadcast n ys, broadcast n zs with
      | Some xs', Some ys', Some zs' => vectorize_loop func xs' ys' zs'
      | _, _, _ => RaisedValueError
      end
  end.

Section Plots.

Variable gamma digamma : R -> R.
Variable _hybrd : (R -> outcome R) -> R -> outcome RootResult.
Variable _minimize_neldermead : (R -> outcome R) -> R -> outcome OptimizeResult.
Variable self : OUModel.

(** The loop of [plot_optimal_trading_thresholds_c], started with
    [a_list = []]. *)
Fixpoint thresholds_c_loop (c_list a_list : list R) : result (list R) :=
  match c_list with
  | [] => Done a_list
  | c :: rest =>
      p <~ lift (get_threshold_by_maximize_expected_return _hybrd self c) ;;
      let (a, m) := p in
      thresholds_c_loop rest (a_list ++ [a])
  end.

Definition plot_optimal_trading_thresholds_c (c_list : list R) : result Figure :=
  a_list <~ thresholds_c_loop c_list [] ;;
  let fig := plt_figure in
  fig <~ plt_plot fig c_list a_list ;;
  let fig := plt_title fig "Optimal Trade Entry vs Trans. Costs" in
  let fig := plt_ylabel fig "a" in
  let fig := plt_xlabel fig "c" in
  Done fig.

(** The loop of [plot_maximum_expected_return], started with
    [a_list = []] and [m_list = []]. *)
Fixpoint maximum_expected_return_loop (c_list a_list m_list : list R)
  : result (list R * list R) :=
  match c_list with
  | [] => Done (a_list, m_list)
  | c :: rest =>
      p <~ lift (get_threshold_by_maximize_expected_return _hybrd self c) ;;
      let (a, m) := p in
      maximum_expected_return_loop rest (a_list ++ [a]) (m_list ++ [m])
  end.

Definition plot_maximum_expected_return (c_list : list R) : result Figure :=
  am <~ maximum_expected_return_loop c_list [] [] ;;
  let (a_list, m_list) := am in
  let func := np_vectorize (expected_return self) in
  let fig := plt_figure in
  ys <~ func a_list m_list c_list ;;
  fig <~ plt_plot fig c_list ys ;;
  let fig := plt_title fig "Max E[Return] vs Trans. Costs" in
  let fig := plt_ylabel fig "${\mu}^* (a, c)$" in
  let fig := plt_xlabel fig "c" in
  Done fig.

(** The loop of [plot_optimal_trading_thresholds_rf]. *)
Fixpoint thresholds_rf_loop (c : R) (rf_list a_list : list R) : result (list R) :=
  match rf_list with
  | [] => Done a_list
  | rf :: rest =>
      p <~ lift (get_threshold_by_maximize_sharpe_ratio
                   gamma digamma _minimize_neldermead self c rf) ;;
      let (a, m) := p in
      thresholds_rf_loop c rest (a_list ++ [a])
  end.

Definition plot_optimal_trading_thresholds_rf (c : R) (rf_list : list R)
  : result Figure :=
  a_list <~ thresholds_rf_loop c rf_list [] ;;
  let fig := plt_figure in
  fig <~ plt_plot fig rf_list a_list ;;
  let fig := plt_title fig "Optimal Trade Entry vs Risk−free Rate" in
  let fig := plt_ylabel fig "a" in
  let fig := plt_xlabel fig "rf" in
  Done fig.

(** The loop of [plot_maximum_sharpe_ratio]. *)
Fixpoint maximum_sharpe_ratio_loop (c : R) (rf_list s_list : list R)
  : result (list R) :=
  match rf_list with
  | [] => Done s_list
  | rf :: rest =>
      p <~ lift (get_threshold_by_maximize_sharpe_ratio
                   gamma digamma _minimize_neldermead self c rf) ;;
      let (a, m) := p in
      s <~ lift (sharpe_ratio gamma digamma self a m c rf) ;;
      maximum_sharpe_ratio_loop c rest (s_list ++ [s])
  end.

Definition plot_maximum_sharpe_ratio (c : R) (rf_list : list R) : result Figure :=
  s_list <~ maximum_sharpe_ratio_loop c rf_list [] ;;
  let fig := plt_figure in
  fig <~ plt_plot fig rf_list s_list ;;
  let fig := plt_title fig "Max Sharpe Ratio vs Risk−free Rate" in
  let fig := plt_ylabel fig "r'$S^* (a, c, r)$'" in
  let fig := plt_xlabel fig "rf" in
  Done fig.

End Plots.

(** ** The formulas of the specification *)

(** The formulas of the paper, as the specification words them. *)

Definition scaled_erfi (self : OUModel) (x : R) : R :=
  erfi ((x - theta self) * sqrt (mu self) / sigma self).

Definition normalized_threshold (self : OUModel) (x : R) : R :=
  (x - theta self) * sqrt (2 * mu self) / sigma self.

Definition first_order_condition (self : OUModel) (c a : R) : R :=
  exp (mu self * (a - theta self) ^ 2 / (sigma self) ^ 2) * (2 * (a - theta self) + c)
  - sigma self * sqrt (PI / mu self) * scaled_erfi self a.

(** The scenario of the specification: [mu = 1.0], [theta = 0.0], [sigma = 1.0]. *)
Definition unit_model : OUModel := {| mu := 1; theta := 0; sigma := 1 |}.

(** The terms of the exponential series. *)
Definition exp_term (z : R) (n : nat) : R := z ^ n / INR (fact n).

(** The terms of the two series of [W1] and of the series of [W2]. *)
Definition W1_term (gamma : R -> R) (x : R) (k : nat) : R :=
  gamma (INR k / 2) * (1.414 * x) ^ k / INR (fact k).

Definition W2_term (gamma digamma : R -> R) (x : R) (k : nat) : R :=
  (digamma ((2 * INR k - 1) / 2) - digamma 1) * gamma ((2 * INR k - 1) / 2)
  * (1.414 * x) ^ (2 * k - 1) / INR (fact (2 * k - 1)).

(** "The squared difference of the two sums, each sum halved before the
    squaring is applied." *)
Definition W1_squared_difference (gamma : R -> R) (x : R) : R :=
  (nsum (W1_term gamma x) 1 / 2 - nsum (fun k => W1_term gamma x k * (-1) ^ k) 1 / 2) ^ 2.

(** A model with [sqrt(2 mu) = 1], so that the normalized thresholds are the
    thresholds themselves. *)
Definition half_model : OUModel := {| mu := 1 / 2; theta := 0; sigma := 1 |}.

(** Solver runs that stop at the point [x0] with the given report. *)
Definition hybrd_stops_at (x0 : R) (flag : Z) (func : R -> outcome R) (guess : R)
  : outcome RootResult :=
  Ret {| root_x := x0; ier := flag |}.

Definition neldermead_stops_at (x0 : R) (ok : bool) (func : R -> outcome R) (guess : R)
  : outcome OptimizeResult :=
  Ret {| sol_x := x0; success := ok |}.

(** An evaluation that raises nothing but [ZeroDivisionError]. *)
Definition raises_only_zero_division {A : Type} (c : outcome A) : Prop :=
  forall e, c = Raise e -> e = ZeroDivisionError.

(** A model whose mean-reversion speed is zero. *)
Definition degenerate_model : OUModel := {| mu := 0; theta := 0; sigma := 1 |}.

(** ** Special functions on the half-integers *)

(** The gamma and digamma functions on the positive half-integers [k / 2],
    the only arguments [_w1] and [_w2] pass to them.  They are fixed there by
    [Gamma(1/2) = sqrt(pi)], [Gamma(1) = 1], [Gamma(t + 1) = t Gamma(t)] and
    [psi(1) = - euler_gamma], [psi(1/2) = - euler_gamma - 2 ln 2],
    [psi(t + 1) = psi(t) + 1 / t]. *)

(** [Gamma(j + 1/2)]. *)
Fixpoint gamma_odd (j : nat) : R :=
  match j with
  | O => sqrt PI
  | S j' => (INR j' + 1 / 2) * gamma_odd j'
  end.

(** [Gamma(k / 2)] for [k >= 1]: [Gamma(j + 1) = j!] at [k = 2 j + 2]. *)
Definition gamma_half (k : nat) : R :=
  match k with
  | O => 0
  | S n => if Nat.even n then gamma_odd (Nat.div2 n) else INR (fact (Nat.div2 n))
  end.

(** [psi(j + 1/2) + euler_gamma = - 2 ln 2 + sum_{i < j} 2 / (2 i + 1)]. *)
Fixpoint psi_odd (j : nat) : R :=
  match j with
  | O => - 2 * ln 2
  | S j' => psi_odd j' + 2 / (2 * INR j' + 1)
  end.

(** [psi(j + 1) + euler_gamma], the harmonic number [H_j]. *)
Fixpoint harmonic (j : nat) : R :=
  match j with
  | O => 0
  | S j' => harmonic j' + / INR (S j')
  end.

(** Euler's constant, the limit of [H_n - ln n]. *)
Definition euler_gamma : R :=
  epsilon (inhabits 0) (Un_cv (fun n => harmonic (S n) - ln (INR (S n)))).

Definition digamma_half (k : nat) : R :=
  match k with
  | O => 0
  | S n => (if Nat.even n then psi_odd (Nat.div2 n) else harmonic (Nat.div2 n))
           - euler_gamma
  end.

(** The index [k] of the half-integer [k / 2] (of the one at or below [t],
    when [t] is none). *)
Definition half_index (t : R) : nat := Z.to_nat (up (2 * t) - 1).

(** Instances of [mpmath.gamma] and [mpmath.digamma]: the gamma and digamma
    functions at every [t = k / 2] with [k >= 1]. *)
Definition gamma_on_halves (t : R) : R := gamma_half (half_index t).
Definition digamma_on_halves (t : R) : R := digamma_half (half_index t).

(** The terms of the three series of [_w1] and [_w2] once [gamma] and
    [digamma] are the functions above, in [y = 1.414 * const]. *)
Definition gamma_coef (n : nat) : R := gamma_half (S n) / INR (fact (S n)).

Definition gamma_series (y : R) (n : nat) : R := gamma_coef n * y ^ S n.

Definition psi_series (y : R) (n : nat) : R :=
  psi_odd n * gamma_odd n * y ^ (2 * n + 1) / INR (fact (2 * n + 1)).

(** ** Transformed models *)

(** The model after the affine change of units [x |-> k x + d] of the spread. *)
Definition rescale (k d : R) (self : OUModel) : OUModel :=
  {| mu := mu self; theta := k * theta self + d; sigma := k * sigma self |}.



(** The transaction cost for which [-1] is a root of the first-order
    condition of [unit_model]. *)
Definition unit_root_cost : R := 2 - 2 * erfi_sum 1 / exp 1.

(** A root finder that gives up at once and reports its initial guess, and a
    simplex that does the same. *)
Definition hybrd_returns_guess (func : R -> outcome R) (guess : R)
  : outcome RootResult :=
  Ret {| root_x := guess; ier := 2 |}.

Definition neldermead_returns_guess (func : R -> outcome R) (guess : R)
  : outcome OptimizeResult :=
  Ret {| sol_x := guess; success := false |}.

(** The figure with one line and the given labels. *)
Definition one_line_figure (xs ys : list R) (t yl xl : string) : Figure :=
  {| lines := [{| xdata := xs; ydata := ys |}];
     title := t; ylabel := yl; xlabel := xl |}.

(** * Properties *)

(** ** The imaginary error function *)

Lemma erfi_sum_cv x : Un_cv (fun N => sum_f_R0 (erfi_term (x * x)) N) (erfi_sum x).
Proof. unfold erfi_sum. apply proj2_sig. Qed.

Lemma erfi_sum_sqr_eq x y : x * x = y * y -> erfi_sum x = erfi_sum y.
Proof.
  intros E. apply UL_sequence with (Un := fun N => sum_f_R0 (erfi_term (y * y)) N).
  - rewrite <- E. apply erfi_sum_cv.
  - apply erfi_sum_cv.
Qed.

Lemma erfi_sum_ge_partial x N : sum_f_R0 (erfi_term (x * x)) N <= erfi_sum x.
Proof.
  apply sum_incr; [apply erfi_sum_cv |].
  intros n. apply erfi_term_nonneg, Rle_0_sqr.
Qed.

Lemma erfi_sum_ge_1 x : 1 <= erfi_sum x.
Proof.
  replace 1 with (sum_f_R0 (erfi_term (x * x)) 0); [apply erfi_sum_ge_partial |].
  unfold erfi_term, erfi_coef. simpl. field.
Qed.

Lemma erfi_sum_mono x y : 0 <= x <= y -> erfi_sum x <= erfi_sum y.
Proof.
  intros [Hx Hxy].
  apply Rle_cv_lim with (Un := fun N => sum_f_R0 (erfi_term (x * x)) N)
                        (Vn := fun N => sum_f_R0 (erfi_term (y * y)) N);
    try apply erfi_sum_cv.
  intros N. apply sum_Rle. intros n _. unfold erfi_term.
  apply Rmult_le_compat_l; [left; apply erfi_coef_pos |].
  apply pow_incr. split; nra.
Qed.

Lemma erfi_const_pos : 0 < 2 / sqrt PI.
Proof. apply Rdiv_lt_0_compat; [lra | apply sqrt_lt_R0, PI_RGT_0]. Qed.

Lemma erfi_odd x : erfi (- x) = - erfi x.
Proof.
  unfold erfi. rewrite (erfi_sum_sqr_eq (- x) x) by ring. ring.
Qed.

Lemma erfi_0 : erfi 0 = 0.
Proof. unfold erfi. ring. Qed.

Lemma erfi_body_increasing_pos x y :
  0 <= x < y -> x * erfi_sum x < y * erfi_sum y.
Proof.
  intros [Hx Hxy].
  assert (H1 := erfi_sum_ge_1 y).
  assert (Hm : erfi_sum x <= erfi_sum y) by (apply erfi_sum_mono; lra).
  nra.
Qed.

Lemma erfi_increasing x y : x < y -> erfi x < erfi y.
Proof.
  intros Hxy. unfold erfi.
  apply Rmult_lt_compat_l; [apply erfi_const_pos |].
  destruct (Rle_lt_dec 0 x) as [Hx | Hx].
  - apply erfi_body_increasing_pos. lra.
  - destruct (Rle_lt_dec 0 y) as [Hy | Hy].
    + assert (H1 := erfi_sum_ge_1 x). assert (H2 := erfi_sum_ge_1 y). nra.
    + assert (H : - y * erfi_sum (- y) < - x * erfi_sum (- x))
        by (apply erfi_body_increasing_pos; lra).
      rewrite (erfi_sum_sqr_eq (- y) y), (erfi_sum_sqr_eq (- x) x) in H by ring.
      lra.
Qed.

Lemma erfi_injective x y : erfi x = erfi y -> x = y.
Proof.
  intros E. destruct (Rtotal_order x y) as [H | [H | H]]; [| exact H |].
  - apply erfi_increasing in H. lra.
  - apply erfi_increasing in H. lra.
Qed.

(** *** Numerical enclosure of [erfi 1] *)

Lemma PI_bounds : 3.141592 < PI < 3.141593.
Proof.
  assert (H := PI_2_3_7_ineq 3).
  unfold PI_2_3_7_tg, tg_alt, Ratan_seq in H.
  cbn [sum_f_R0 Nat.mul Nat.add pow INR] in H.
  lra.
Qed.

Lemma sqrt_PI_bounds : 1.772453 < sqrt PI < 1.772454.
Proof.
  destruct PI_bounds as [Hlo Hhi].
  split.
  - rewrite <- (sqrt_pow2 1.772453) by lra. apply sqrt_lt_1; lra.
  - rewrite <- (sqrt_pow2 1.772454) by lra. apply sqrt_lt_1; lra.
Qed.

Lemma erfi_coef_succ n : erfi_coef (S n) <= erfi_coef n / INR (S n).
Proof.
  unfold erfi_coef, Rdiv. rewrite <- Rinv_mult.
  assert (Hf := INR_fact_lt_0 n).
  assert (Hs : 0 < INR (S n)) by (apply lt_0_INR; lia).
  assert (Hk : 0 < INR (2 * n + 1)) by (apply lt_0_INR; lia).
  assert (Hk' : INR (2 * n + 1) <= INR (2 * S n + 1)) by (apply le_INR; lia).
  rewrite fact_simpl, mult_INR.
  apply Rinv_le_contravar.
  - repeat apply Rmult_lt_0_compat; assumption.
  - apply Rle_trans with (INR (S n) * INR (fact n) * INR (2 * n + 1)); [nra |].
    apply Rmult_le_compat_l; [nra | exact Hk'].
Qed.

(** Past index [N] the tail of the series at [1] is dominated by a geometric
    one of ratio [1 / (N + 1)]. *)
Lemma erfi_partial_tail N k :
  (0 < N)%nat ->
  sum_f_R0 (erfi_term 1) (N + k) + erfi_term 1 (N + k) / INR N
  <= sum_f_R0 (erfi_term 1) N + erfi_term 1 N / INR N.
Proof.
  intros HN. induction k as [| k IH].
  - rewrite Nat.add_0_r. lra.
  - eapply Rle_trans; [| exact IH].
    replace (N + S k)%nat with (S (N + k)) by lia.
    cbn [sum_f_R0]. unfold erfi_term. rewrite !pow1, !Rmult_1_r.
    assert (Hc := erfi_coef_succ (N + k)).
    assert (Hp := erfi_coef_pos (S (N + k))).
    assert (Hq := erfi_coef_pos (N + k)).
    assert (HN' : 1 <= INR N) by (apply (le_INR 1); lia).
    assert (Hs : INR N + 1 <= INR (S (N + k))).
    { rewrite S_INR, plus_INR. assert (0 <= INR k) by apply pos_INR. lra. }
    set (u := erfi_coef (S (N + k))) in *. set (v := erfi_coef (N + k)) in *.
    set (s := INR (S (N + k))) in *. set (n := INR N) in *.
    assert (Hu : u * (n + 1) <= v).
    { apply Rle_trans with (u * s); [nra |].
      unfold Rdiv in Hc. apply Rmult_le_compat_r with (r := s) in Hc; [| lra].
      rewrite Rmult_assoc, Rinv_l, Rmult_1_r in Hc by lra. exact Hc. }
    assert (E : u + u / n = u * (n + 1) / n) by (field; lra).
    assert (Hd : u * (n + 1) / n <= v / n).
    { unfold Rdiv. apply Rmult_le_compat_r; [| exact Hu].
      left. apply Rinv_0_lt_compat. lra. }
    lra.
Qed.

Lemma erfi_partial_le N n :
  (0 < N)%nat ->
  sum_f_R0 (erfi_term 1) n <= sum_f_R0 (erfi_term 1) N + erfi_term 1 N / INR N.
Proof.
  intros HN.
  assert (Hpos : forall i, 0 <= erfi_term 1 i) by (intros i; apply erfi_term_nonneg; lra).
  assert (Hdiv : forall i, 0 <= erfi_term 1 i / INR N).
  { intros i. apply Rmult_le_pos; [apply Hpos |].
    left. apply Rinv_0_lt_compat, lt_0_INR, HN. }
  destruct (Nat.le_gt_cases N n) as [Hle | Hgt].
  - replace n with (N + (n - N))%nat by lia.
    eapply Rle_trans; [| apply (erfi_partial_tail N (n - N) HN)].
    specialize (Hdiv (N + (n - N))%nat). lra.
  - apply Rle_trans with (sum_f_R0 (erfi_term 1) N); [| specialize (Hdiv N); lra].
    replace N with (n + (N - n))%nat by lia.
    induction (N - n)%nat as [| d IHd].
    + rewrite Nat.add_0_r. lra.
    + replace (n + S d)%nat with (S (n + d)) by lia. cbn [sum_f_R0].
      specialize (Hpos (S (n + d))). lra.
Qed.

Lemma erfi_coef_IZR n :
  erfi_coef n = / IZR (Z.of_nat (fact n) * Z.of_nat (2 * n + 1)).
Proof. unfold erfi_coef. now rewrite mult_IZR, <- !INR_IZR_INZ. Qed.

Ltac erfi_coef_eval n :=
  rewrite (erfi_coef_IZR n);
  let z := eval vm_compute in (Z.of_nat (fact n) * Z.of_nat (2 * n + 1))%Z in
  replace (Z.of_nat (fact n) * Z.of_nat (2 * n + 1))%Z with z
    by (vm_compute; reflexivity).

Ltac erfi_partial_eval :=
  unfold erfi_term; cbn [sum_f_R0]; rewrite ?pow1;
  erfi_coef_eval 0%nat; erfi_coef_eval 1%nat; erfi_coef_eval 2%nat;
  erfi_coef_eval 3%nat; erfi_coef_eval 4%nat; erfi_coef_eval 5%nat;
  erfi_coef_eval 6%nat; erfi_coef_eval 7%nat; erfi_coef_eval 8%nat.

Lemma erfi_sum_1_bounds : 1.462651 < erfi_sum 1 < 1.462652.
Proof.
  split.
  - eapply Rlt_le_trans; [| apply (erfi_sum_ge_partial 1 8)].
    rewrite Rmult_1_r. erfi_partial_eval. lra.
  - eapply Rle_lt_trans.
    + apply Rle_cv_lim with (Un := fun N => sum_f_R0 (erfi_term (1 * 1)) N)
        (Vn := fun _ : nat => sum_f_R0 (erfi_term 1) 8 + erfi_term 1 8 / INR 8).
      * intros n. rewrite Rmult_1_r. apply erfi_partial_le. lia.
      * apply erfi_sum_cv.
      * intros eps Heps. exists 0%nat. intros n _.
        unfold Rdist. rewrite Rminus_diag, Rabs_R0. exact Heps.
    + erfi_partial_eval. cbn [INR]. lra.
Qed.

Lemma erfi_1_bounds : 1.65042 < erfi 1 < 1.65043.
Proof.
  unfold erfi. rewrite Rmult_1_l.
  destruct sqrt_PI_bounds as [Hlo Hhi]. destruct erfi_sum_1_bounds as [Slo Shi].
  assert (Hinv : / 1.772454 < / sqrt PI < / 1.772453).
  { split; apply Rinv_lt_contravar; nra. }
  assert (Hpos : 0 < / sqrt PI) by lra.
  unfold Rdiv. split; nra.
Qed.

(** ** Series *)

Lemma Rabs_le_bounds x b : Rabs x <= b -> - b <= x <= b.
Proof. unfold Rabs. destruct (Rcase_abs x); lra. Qed.

Lemma nsum_spec f lo l : infinite_sum (series_from f lo) l -> nsum f lo = l.
Proof.
  intros H. unfold nsum.
  apply uniqueness_sum with (An := series_from f lo); [| exact H].
  apply epsilon_spec. now exists l.
Qed.

Lemma infinite_sum_ext A B l :
  (forall n, A n = B n) -> infinite_sum A l -> infinite_sum B l.
Proof.
  intros E H eps Heps. destruct (H eps Heps) as [N HN]. exists N. intros n Hn.
  rewrite <- (sum_eq A B n) by (intros; apply E). now apply HN.
Qed.

Lemma infinite_sum_plus A B l1 l2 :
  infinite_sum A l1 -> infinite_sum B l2 ->
  infinite_sum (fun n => A n + B n) (l1 + l2).
Proof.
  intros HA HB.
  apply (Un_cv_ext (fun n => sum_f_R0 A n + sum_f_R0 B n)).
  - intros n. symmetry. apply sum_plus.
  - now apply CV_plus.
Qed.

Lemma infinite_sum_minus A B l1 l2 :
  infinite_sum A l1 -> infinite_sum B l2 ->
  infinite_sum (fun n => A n - B n) (l1 - l2).
Proof.
  intros HA HB.
  apply (Un_cv_ext (fun n => sum_f_R0 A n - sum_f_R0 B n)).
  - intros n. induction n as [| n IH]; cbn [sum_f_R0]; [reflexivity |].
    rewrite <- IH. ring.
  - now apply CV_minus.
Qed.

Lemma infinite_sum_ge_partial A l N :
  infinite_sum A l -> (forall n, 0 <= A n) -> sum_f_R0 A N <= l.
Proof. intros H Hpos. now apply sum_incr. Qed.

(** A series whose absolute partial sums stay bounded converges. *)
Lemma bounded_abs_series_cv A M :
  (forall N, sum_f_R0 (fun n => Rabs (A n)) N <= M) ->
  exists l, infinite_sum A l.
Proof.
  intros HM.
  assert (Hcv : { l | Un_cv (fun N => sum_f_R0 (fun n => Rabs (A n)) N) l }).
  { apply growing_cv.
    - intros n. cbn [sum_f_R0]. assert (H := Rabs_pos (A (S n))). lra.
    - exists M. intros r [i ->]. apply HM. }
  destruct (cv_cauchy_2 A (cauchy_abs A (cv_cauchy_1 _ Hcv))) as [l Hl].
  now exists l.
Qed.

Lemma exp_term_nonneg z n : 0 <= z -> 0 <= exp_term z n.
Proof.
  intros Hz. unfold exp_term. apply Rmult_le_pos; [now apply pow_le |].
  left. apply Rinv_0_lt_compat, INR_fact_lt_0.
Qed.

Lemma exp_term_sum z : infinite_sum (exp_term z) (exp z).
Proof.
  apply infinite_sum_ext with (A := fun i => / INR (fact i) * z ^ i).
  - intros n. unfold exp_term. field. apply INR_fact_neq_0.
  - unfold exp. exact (proj2_sig (exist_exp z)).
Qed.

Lemma exp_partial_le z N : 0 <= z -> sum_f_R0 (exp_term z) N <= exp z.
Proof.
  intros Hz. apply infinite_sum_ge_partial; [apply exp_term_sum |].
  intros n. now apply exp_term_nonneg.
Qed.

(** Termwise domination by the exponential series. *)
Lemma exp_dominated_cv A C z :
  0 <= z -> (forall n, Rabs (A n) <= C * exp_term z n) ->
  exists l, infinite_sum A l /\ Rabs (l - A 0%nat) <= C * (exp z - 1).
Proof.
  intros Hz HA.
  assert (HC : 0 <= C).
  { specialize (HA 0%nat). unfold exp_term in HA. cbn in HA.
    assert (H := Rabs_pos (A 0%nat)). replace (C * (1 / 1)) with C in HA by field. lra. }
  assert (Hpart : forall N, sum_f_R0 (fun n => Rabs (A n)) N <= C * sum_f_R0 (exp_term z) N).
  { intros N. rewrite scal_sum. apply sum_Rle. intros n _.
    rewrite Rmult_comm. apply HA. }
  destruct (bounded_abs_series_cv A (C * exp z)) as [l Hl].
  { intros N. eapply Rle_trans; [apply Hpart |].
    apply Rmult_le_compat_l; [exact HC | now apply exp_partial_le]. }
  exists l. split; [exact Hl |].
  assert (Htail : forall N, Rabs (sum_f_R0 A N - A 0%nat) <= C * (exp z - 1)).
  { intros N. destruct N as [| N].
    - cbn [sum_f_R0]. rewrite Rminus_diag, Rabs_R0.
      apply Rmult_le_pos; [exact HC |]. assert (H := exp_ineq1_le z). lra.
    - rewrite (decomp_sum A (S N)) by lia. cbn [Init.Nat.pred].
      replace (A 0%nat + sum_f_R0 (fun i => A (S i)) N - A 0%nat)
        with (sum_f_R0 (fun i => A (S i)) N) by ring.
      eapply Rle_trans; [apply Rsum_abs |].
      apply Rle_trans with (C * sum_f_R0 (fun i => exp_term z (S i)) N).
      + rewrite scal_sum. apply sum_Rle. intros n _.
        rewrite Rmult_comm. apply HA.
      + apply Rmult_le_compat_l; [exact HC |].
        assert (H := exp_partial_le z (S N) Hz).
        rewrite (decomp_sum (exp_term z) (S N)) in H by lia.
        cbn [Init.Nat.pred] in H. unfold exp_term at 1 in H. cbn in H.
        replace (1 / 1) with 1 in H by field. lra. }
  apply Rabs_le. split.
  - apply Rle_cv_lim with (Un := fun _ : nat => - (C * (exp z - 1)))
                          (Vn := fun N => sum_f_R0 A N - A 0%nat).
    + intros N. specialize (Htail N). apply Rabs_le_bounds in Htail. lra.
    + intros eps Heps. exists 0%nat. intros n _.
      unfold Rdist. rewrite Rminus_diag, Rabs_R0. exact Heps.
    + apply CV_minus; [exact Hl |].
      intros eps Heps. exists 0%nat. intros n _.
      unfold Rdist. rewrite Rminus_diag, Rabs_R0. exact Heps.
  - apply Rle_cv_lim with (Vn := fun _ : nat => C * (exp z - 1))
                          (Un := fun N => sum_f_R0 A N - A 0%nat).
    + intros N. specialize (Htail N). apply Rabs_le_bounds in Htail. lra.
    + apply CV_minus; [exact Hl |].
      intros eps Heps. exists 0%nat. intros n _.
      unfold Rdist. rewrite Rminus_diag, Rabs_R0. exact Heps.
    + intros eps Heps. exists 0%nat. intros n _.
      unfold Rdist. rewrite Rminus_diag, Rabs_R0. exact Heps.
Qed.

(** Domination of consecutive pairs of terms by the exponential series. *)
Lemma sum_pairs A N :
  sum_f_R0 A (2 * N + 1) = sum_f_R0 (fun j => A (2 * j)%nat + A (2 * j + 1)%nat) N.
Proof.
  induction N as [| N IH].
  - cbn. reflexivity.
  - replace (2 * S N + 1)%nat with (S (S (2 * N + 1))) by lia.
    cbn [sum_f_R0]. rewrite IH.
    replace (S (2 * N + 1)) with (2 * S N)%nat by lia.
    replace (S (2 * S N)) with (2 * S N + 1)%nat by lia. ring.
Qed.

Lemma exp_pair_dominated_cv A C z :
  0 <= z ->
  (forall j, Rabs (A (2 * j)%nat) + Rabs (A (2 * j + 1)%nat) <= C * exp_term z j) ->
  exists l, infinite_sum A l.
Proof.
  intros Hz HA.
  assert (HC : 0 <= C).
  { specialize (HA 0%nat). unfold exp_term in HA. cbn in HA.
    assert (H0 := Rabs_pos (A 0%nat)). assert (H1 := Rabs_pos (A 1%nat)).
    replace (C * (1 / 1)) with C in HA by field. lra. }
  apply bounded_abs_series_cv with (M := C * exp z).
  intros N.
  apply Rle_trans with (sum_f_R0 (fun n => Rabs (A n)) (2 * N + 1)).
  - replace (2 * N + 1)%nat with (N + S N)%nat by lia.
    induction (S N) as [| d IHd].
    + rewrite Nat.add_0_r. lra.
    + replace (N + S d)%nat with (S (N + d)) by lia. cbn [sum_f_R0].
      assert (H := Rabs_pos (A (S (N + d)))). lra.
  - rewrite (sum_pairs (fun n => Rabs (A n))).
    apply Rle_trans with (C * sum_f_R0 (exp_term z) N).
    + rewrite scal_sum. apply sum_Rle. intros n _. rewrite Rmult_comm. apply HA.
    + apply Rmult_le_compat_l; [exact HC | now apply exp_partial_le].
Qed.

Lemma half_index_INR k : half_index (INR k / 2) = k.
Proof.
  unfold half_index. replace (2 * (INR k / 2)) with (INR k) by field.
  rewrite <- (up_tech (INR k) (Z.of_nat k)).
  - replace (Z.of_nat k + 1 - 1)%Z with (Z.of_nat k) by lia. apply Nat2Z.id.
  - rewrite <- INR_IZR_INZ. lra.
  - rewrite plus_IZR, <- INR_IZR_INZ. lra.
Qed.

Lemma half_index_odd k : (0 < k)%nat -> half_index ((2 * INR k - 1) / 2) = (2 * k - 1)%nat.
Proof.
  intros Hk. rewrite <- (half_index_INR (2 * k - 1)). f_equal.
  rewrite minus_INR, mult_INR by lia. cbn. lra.
Qed.

Lemma half_index_1 : half_index 1 = 2%nat.
Proof. rewrite <- (half_index_INR 2). f_equal. cbn. lra. Qed.

Lemma gamma_half_odd j : gamma_half (S (2 * j)) = gamma_odd j.
Proof.
  unfold gamma_half. rewrite Nat.even_mul, Nat.div2_double. reflexivity.
Qed.

Lemma gamma_half_even j : gamma_half (S (S (2 * j))) = INR (fact j).
Proof.
  unfold gamma_half.
  rewrite Nat.div2_succ_double, Nat.even_succ, <- Nat.negb_even, Nat.even_mul.
  reflexivity.
Qed.

Lemma gamma_odd_pos j : 0 < gamma_odd j.
Proof.
  induction j as [| j IH]; cbn [gamma_odd].
  - apply sqrt_lt_R0, PI_RGT_0.
  - apply Rmult_lt_0_compat; [| exact IH]. assert (H := pos_INR j). lra.
Qed.

Lemma gamma_odd_le j : gamma_odd j <= sqrt PI * INR (fact j).
Proof.
  induction j as [| j IH].
  - cbn. lra.
  - cbn [gamma_odd]. rewrite fact_simpl, mult_INR, S_INR.
    assert (Hp := gamma_odd_pos j). assert (Hj := pos_INR j).
    assert (Hf := INR_fact_lt_0 j). nra.
Qed.

Lemma psi_odd_bounds j : - 2 <= psi_odd j <= 2 * INR j.
Proof.
  assert (Hln : / 2 < ln 2 < 1).
  { split; [apply ln_lt_2 |].
    rewrite <- (ln_exp 1). apply ln_increasing; [lra |].
    assert (H := exp_ineq1 1). lra. }
  induction j as [| j IH].
  - cbn. lra.
  - cbn [psi_odd]. rewrite S_INR. assert (Hj := pos_INR j).
    assert (H2 : 0 < 2 / (2 * INR j + 1) <= 2).
    { split.
      - apply Rdiv_lt_0_compat; lra.
      - apply Rmult_le_reg_r with (2 * INR j + 1); [lra |].
        unfold Rdiv. rewrite Rmult_assoc, Rinv_l by lra. lra. }
    lra.
Qed.

Lemma fact_double_ge n :
  INR (S n) * INR (fact n) * INR (fact n) <= INR (fact (2 * n + 1)).
Proof.
  induction n as [| n IH].
  - cbn. lra.
  - replace (2 * S n + 1)%nat with (S (S (2 * n + 1))) by lia.
    rewrite !fact_simpl, !mult_INR.
    assert (Hf := INR_fact_lt_0 n).
    assert (Hg := INR_fact_lt_0 (2 * n + 1)).
    rewrite !S_INR in *. rewrite plus_INR, mult_INR in *. cbn [INR] in *.
    assert (Hn := pos_INR n).
    set (f := INR (fact n)) in *. set (g := INR (fact (2 * n + 1))) in *.
    set (x := INR n) in *.
    assert (H1 : (x + 1 + 1) * ((x + 1) * f) * ((x + 1) * f)
                 = (x + 1 + 1) * (x + 1) * ((x + 1) * f * f)) by ring.
    rewrite H1.
    apply Rle_trans with ((x + 1 + 1) * (x + 1) * g).
    + apply Rmult_le_compat_l; [nra | exact IH].
    + assert (0 <= ((1 + 1) * x + 1 + 1 + 1) * ((1 + 1) * x + 1 + 1)
                   - (x + 1 + 1) * (x + 1)) by nra.
      nra.
Qed.


(** ** The series of [_w1] and [_w2] on the half-integers *)

Lemma div_le_bound a b c : 0 < b -> a <= c * b -> a / b <= c.
Proof.
  intros Hb H. apply Rmult_le_reg_r with b; [exact Hb |].
  unfold Rdiv. rewrite Rmult_assoc, Rinv_l by lra. lra.
Qed.

Lemma gamma_on_halves_INR k : gamma_on_halves (INR k / 2) = gamma_half k.
Proof. unfold gamma_on_halves. now rewrite half_index_INR. Qed.

(** [gamma_on_halves] and [digamma_on_halves] satisfy the equations that fix
    the gamma and digamma functions on the half-integers. *)
Lemma gamma_half_rec k :
  (0 < k)%nat -> gamma_half (S (S k)) = INR k / 2 * gamma_half k.
Proof.
  intros Hk. destruct (Nat.Even_or_Odd k) as [[j ->] | [j ->]].
  - destruct j as [| j]; [lia |].
    assert (E1 := gamma_half_even (S j)).
    assert (E2 : gamma_half (2 * S j) = INR (fact j)).
    { replace (2 * S j)%nat with (S (S (2 * j))) by lia. apply gamma_half_even. }
    rewrite E1, E2, fact_simpl, !mult_INR. simpl (INR 2). field.
  - assert (E1 : gamma_half (S (S (2 * j + 1))) = gamma_odd (S j)).
    { replace (S (S (2 * j + 1))) with (S (2 * S j)) by lia. apply gamma_half_odd. }
    assert (E2 : gamma_half (2 * j + 1) = gamma_odd j).
    { replace (2 * j + 1)%nat with (S (2 * j)) by lia. apply gamma_half_odd. }
    rewrite E1, E2. cbn [gamma_odd].
    rewrite plus_INR, mult_INR. simpl (INR 2). simpl (INR 1). field.
Qed.

Lemma gamma_on_halves_spec :
  gamma_on_halves (1 / 2) = sqrt PI
  /\ gamma_on_halves 1 = 1
  /\ forall k, (0 < k)%nat ->
       gamma_on_halves (INR k / 2 + 1) = INR k / 2 * gamma_on_halves (INR k / 2).
Proof.
  split; [| split].
  - assert (E : 1 / 2 = INR 1 / 2) by (cbn; lra).
    rewrite E, gamma_on_halves_INR. reflexivity.
  - assert (E : gamma_on_halves 1 = gamma_on_halves (INR 2 / 2))
      by (f_equal; cbn; lra).
    rewrite E, gamma_on_halves_INR. reflexivity.
  - intros k Hk.
    replace (INR k / 2 + 1) with (INR (S (S k)) / 2) by (rewrite !S_INR; lra).
    rewrite !gamma_on_halves_INR. now apply gamma_half_rec.
Qed.


Lemma digamma_on_halves_INR k : digamma_on_halves (INR k / 2) = digamma_half k.
Proof. unfold digamma_on_halves. now rewrite half_index_INR. Qed.

Lemma digamma_half_odd j : digamma_half (S (2 * j)) = psi_odd j - euler_gamma.
Proof.
  unfold digamma_half. rewrite Nat.even_mul, Nat.div2_double. reflexivity.
Qed.

Lemma digamma_half_even j : digamma_half (S (S (2 * j))) = harmonic j - euler_gamma.
Proof.
  unfold digamma_half.
  rewrite Nat.div2_succ_double, Nat.even_succ, <- Nat.negb_even, Nat.even_mul.
  reflexivity.
Qed.

Lemma digamma_half_rec k :
  (0 < k)%nat -> digamma_half (S (S k)) = digamma_half k + 2 / INR k.
Proof.
  intros Hk. destruct (Nat.Even_or_Odd k) as [[j ->] | [j ->]].
  - destruct j as [| j]; [lia |].
    assert (E1 := digamma_half_even (S j)).
    assert (E2 : digamma_half (2 * S j) = harmonic j - euler_gamma).
    { replace (2 * S j)%nat with (S (S (2 * j))) by lia. apply digamma_half_even. }
    rewrite E1, E2. cbn [harmonic]. rewrite mult_INR. simpl (INR 2).
    assert (Hj : 0 < INR (S j)) by (apply lt_0_INR; lia). field. lra.
  - assert (E1 : digamma_half (S (S (2 * j + 1))) = psi_odd (S j) - euler_gamma).
    { replace (S (S (2 * j + 1))) with (S (2 * S j)) by lia. apply digamma_half_odd. }
    assert (E2 : digamma_half (2 * j + 1) = psi_odd j - euler_gamma).
    { replace (2 * j + 1)%nat with (S (2 * j)) by lia. apply digamma_half_odd. }
    rewrite E1, E2. cbn [psi_odd].
    rewrite plus_INR, mult_INR. simpl (INR 2). simpl (INR 1).
    replace ((1 + 1) * INR j + 1) with (2 * INR j + 1) by ring. lra.
Qed.

Lemma digamma_on_halves_spec :
  digamma_on_halves 1 = - euler_gamma
  /\ digamma_on_halves (1 / 2) = - euler_gamma - 2 * ln 2
  /\ forall k, (0 < k)%nat ->
       digamma_on_halves (INR k / 2 + 1) = digamma_on_halves (INR k / 2) + / (INR k / 2).
Proof.
  split; [| split].
  - assert (E : digamma_on_halves 1 = digamma_on_halves (INR 2 / 2))
      by (f_equal; cbn; lra).
    rewrite E, digamma_on_halves_INR. cbn. lra.
  - assert (E : 1 / 2 = INR 1 / 2) by (cbn; lra).
    rewrite E, digamma_on_halves_INR. cbn. lra.
  - intros k Hk.
    replace (INR k / 2 + 1) with (INR (S (S k)) / 2) by (rewrite !S_INR; lra).
    rewrite !digamma_on_halves_INR, digamma_half_rec by exact Hk.
    assert (H : 0 < INR k) by now apply lt_0_INR.
    f_equal. field. lra.
Qed.

Lemma common_term_halves x n :
  series_from (common_term gamma_on_halves x) 1 n = gamma_series (1.414 * x) n.
Proof.
  unfold series_from, common_term, gamma_series, gamma_coef, fac.
  cbn [Nat.add]. rewrite gamma_on_halves_INR. field. apply INR_fact_neq_0.
Qed.

Lemma common_term_alt_halves x n :
  series_from (fun k => common_term gamma_on_halves x k * (-1) ^ k) 1 n
  = gamma_series (- (1.414 * x)) n.
Proof.
  unfold series_from, common_term, gamma_series, gamma_coef, fac.
  cbn [Nat.add]. rewrite gamma_on_halves_INR.
  replace (- (1.414 * x)) with (-1 * (1.414 * x)) by ring.
  rewrite (Rpow_mult_distr (-1)). field. apply INR_fact_neq_0.
Qed.

Lemma middle_term_halves x n :
  series_from (middle_term gamma_on_halves digamma_on_halves x) 1 n
  = psi_series (1.414 * x) n.
Proof.
  unfold series_from, middle_term, psi_series, fac.
  unfold gamma_on_halves, digamma_on_halves.
  rewrite half_index_odd, half_index_1 by lia.
  replace (2 * (1 + n) - 1)%nat with (S (2 * n)) by lia.
  replace (2 * n + 1)%nat with (S (2 * n)) by lia.
  rewrite gamma_half_odd. unfold digamma_half.
  rewrite Nat.even_mul, Nat.div2_double. cbn. f_equal. f_equal. ring.
Qed.

Lemma gamma_coef_nonneg n : 0 <= gamma_coef n.
Proof.
  unfold gamma_coef. apply Rmult_le_pos.
  - unfold gamma_half. destruct (Nat.even n).
    + left. apply gamma_odd_pos.
    + apply pos_INR.
  - left. apply Rinv_0_lt_compat, INR_fact_lt_0.
Qed.

Lemma gamma_coef_even j : gamma_coef (2 * j) <= sqrt PI / INR (fact j).
Proof.
  unfold gamma_coef. rewrite gamma_half_odd.
  assert (Hf := INR_fact_lt_0 j). assert (Hg := gamma_odd_le j).
  assert (Hd := fact_double_ge j). assert (Hq : 0 < sqrt PI) by apply sqrt_lt_R0, PI_RGT_0.
  replace (S (2 * j)) with (2 * j + 1)%nat by lia.
  assert (H1 : 1 <= INR (S j)) by (apply (le_INR 1); lia).
  apply div_le_bound; [apply INR_fact_lt_0 |].
  apply Rle_trans with (sqrt PI * INR (fact j)); [exact Hg |].
  unfold Rdiv. rewrite Rmult_assoc. apply Rmult_le_compat_l; [lra |].
  apply Rmult_le_reg_l with (INR (fact j)); [exact Hf |].
  rewrite <- Rmult_assoc, Rinv_r, Rmult_1_l by lra. nra.
Qed.

Lemma gamma_coef_odd j : gamma_coef (2 * j + 1) <= 1 / INR (fact j).
Proof.
  unfold gamma_coef. replace (S (2 * j + 1)) with (S (S (2 * j))) by lia.
  rewrite gamma_half_even.
  assert (Hf := INR_fact_lt_0 j). assert (Hd := fact_double_ge j).
  replace (S (S (2 * j))) with (S (2 * j + 1)) by lia.
  rewrite fact_simpl, mult_INR.
  assert (Hg := INR_fact_lt_0 (2 * j + 1)).
  assert (H1 : 1 <= INR (S j)) by (apply (le_INR 1); lia).
  assert (H2 : 1 <= INR (S (2 * j + 1))) by (apply (le_INR 1); lia).
  apply div_le_bound; [nra |].
  apply Rmult_le_reg_l with (INR (fact j)); [exact Hf |].
  unfold Rdiv. rewrite <- !Rmult_assoc, Rmult_1_r, Rinv_r, Rmult_1_l by lra. nra.
Qed.

Lemma gamma_series_abs y n : Rabs (gamma_series y n) = gamma_series (Rabs y) n.
Proof.
  unfold gamma_series. rewrite Rabs_mult, <- RPow_abs.
  now rewrite (Rabs_pos_eq _ (gamma_coef_nonneg n)).
Qed.

Lemma gamma_series_cv y : exists l, infinite_sum (gamma_series y) l.
Proof.
  apply exp_pair_dominated_cv with (C := sqrt PI * Rabs y + Rabs y ^ 2) (z := Rabs y ^ 2).
  - apply pow2_ge_0.
  - intros j. rewrite !gamma_series_abs. unfold gamma_series, exp_term.
    assert (Ha := Rabs_pos y). assert (Hf := INR_fact_lt_0 j).
    assert (Hp : 0 <= (Rabs y ^ 2) ^ j) by (apply pow_le, pow2_ge_0).
    assert (Hi : 0 < / INR (fact j)) by now apply Rinv_0_lt_compat.
    replace (S (2 * j)) with (1 + 2 * j)%nat by lia.
    replace (S (2 * j + 1)) with (2 + 2 * j)%nat by lia.
    rewrite !pow_add, !pow_mult, pow_1.
    assert (He := gamma_coef_even j). assert (Ho := gamma_coef_odd j).
    assert (Hce := gamma_coef_nonneg (2 * j)). assert (Hco := gamma_coef_nonneg (2 * j + 1)).
    unfold Rdiv in *. set (c0 := gamma_coef (2 * j)) in *.
    set (c1 := gamma_coef (2 * j + 1)) in *. set (p := (Rabs y ^ 2) ^ j) in *.
    set (i := / INR (fact j)) in *. set (a := Rabs y) in *. set (q := sqrt PI) in *.
    assert (Ha2 : 0 <= a ^ 2) by apply pow2_ge_0.
    assert (E1 : c0 * (a * p) <= q * i * (a * p)).
    { apply Rmult_le_compat_r; [nra | exact He]. }
    assert (E2 : c1 * (a ^ 2 * p) <= 1 * i * (a ^ 2 * p)).
    { apply Rmult_le_compat_r; [nra | exact Ho]. }
    lra.
Qed.

Lemma gamma_coef_0 : gamma_coef 0 = sqrt PI.
Proof. unfold gamma_coef. cbn. field. Qed.

Lemma gamma_coef_1 : gamma_coef 1 = 1 / 2.
Proof. unfold gamma_coef. cbn. field. Qed.

(** The sum at [- w] is strictly smaller in absolute value than the sum at
    [w > 0], whose terms are all positive. *)
Lemma gamma_series_sums_sq w P N :
  0 < w -> infinite_sum (gamma_series w) P -> infinite_sum (gamma_series (- w)) N ->
  N ^ 2 < P ^ 2.
Proof.
  intros Hw HP HN.
  assert (Hsign : forall n, - gamma_series w n <= gamma_series (- w) n <= gamma_series w n).
  { intros n. unfold gamma_series.
    replace (- w) with (-1 * w) by ring. rewrite Rpow_mult_distr.
    assert (Hs := pow_1_abs (S n)). apply Req_le, Rabs_le_bounds in Hs.
    assert (Hc := gamma_coef_nonneg n).
    assert (Hp : 0 <= w ^ S n) by (apply pow_le; lra).
    assert (Hcp : 0 <= gamma_coef n * w ^ S n) by now apply Rmult_le_pos.
    set (s := (-1) ^ S n) in *. set (c := gamma_coef n * w ^ S n) in *.
    replace (gamma_coef n * (s * w ^ S n)) with (s * c) by (unfold c; ring).
    split; nra. }
  assert (Hq : 0 < sqrt PI) by apply sqrt_lt_R0, PI_RGT_0.
  assert (Hminus : 2 * sqrt PI * w <= P - N).
  { assert (H := infinite_sum_ge_partial _ _ 0 (infinite_sum_minus _ _ _ _ HP HN)).
    cbn [sum_f_R0] in H. cbv beta in H. unfold gamma_series in H.
    rewrite gamma_coef_0, !pow_1 in H.
    replace (2 * sqrt PI * w) with (sqrt PI * w - sqrt PI * - w) by ring.
    apply H. intros n. specialize (Hsign n). unfold gamma_series in Hsign. lra. }
  assert (Hplus : w ^ 2 <= P + N).
  { assert (H := infinite_sum_ge_partial _ _ 1 (infinite_sum_plus _ _ _ _ HP HN)).
    cbn [sum_f_R0] in H. cbv beta in H. unfold gamma_series in H.
    rewrite gamma_coef_0, gamma_coef_1, !pow_1 in H.
    replace (w ^ 2)
      with (sqrt PI * w + sqrt PI * - w + (1 / 2 * w ^ 2 + 1 / 2 * (- w) ^ 2)) by field.
    apply H. intros n. specialize (Hsign n). unfold gamma_series in Hsign. lra. }
  assert (Hw2 : 0 < w ^ 2) by (apply pow_lt; lra).
  assert (Hqw : 0 < 2 * sqrt PI * w) by (apply Rmult_lt_0_compat; lra).
  assert (Hprod : 0 < (P - N) * (P + N)) by (apply Rmult_lt_0_compat; lra).
  replace (P ^ 2) with (N ^ 2 + (P - N) * (P + N)) by ring. lra.
Qed.

Lemma _w1_halves x P N :
  infinite_sum (gamma_series (1.414 * x)) P ->
  infinite_sum (gamma_series (- (1.414 * x))) N ->
  _w1 gamma_on_halves x = (P / 2) ^ 2 - (N / 2) ^ 2.
Proof.
  intros HP HN. unfold _w1.
  rewrite (nsum_spec (common_term gamma_on_halves x) 1 P).
  - rewrite (nsum_spec (fun k => common_term gamma_on_halves x k * (-1) ^ k) 1 N).
    + reflexivity.
    + apply infinite_sum_ext with (2 := HN). intros n.
      symmetry. apply common_term_alt_halves.
  - apply infinite_sum_ext with (2 := HP). intros n.
    symmetry. apply common_term_halves.
Qed.

Lemma _w1_halves_pos x : 0 < x -> 0 < _w1 gamma_on_halves x.
Proof.
  intros Hx.
  destruct (gamma_series_cv (1.414 * x)) as [P HP].
  destruct (gamma_series_cv (- (1.414 * x))) as [N HN].
  rewrite (_w1_halves x P N HP HN).
  assert (H := gamma_series_sums_sq (1.414 * x) P N ltac:(lra) HP HN). nra.
Qed.

Lemma _w1_halves_neg x : x < 0 -> _w1 gamma_on_halves x < 0.
Proof.
  intros Hx.
  destruct (gamma_series_cv (1.414 * x)) as [P HP].
  destruct (gamma_series_cv (- (1.414 * x))) as [N HN].
  rewrite (_w1_halves x P N HP HN).
  assert (H : P ^ 2 < N ^ 2).
  { apply (gamma_series_sums_sq (- (1.414 * x))); [lra | exact HN |].
    now rewrite Ropp_involutive. }
  nra.
Qed.

Lemma psi_series_dominated y n :
  Rabs (psi_series y n) <= 2 * sqrt PI * Rabs y * exp_term (Rabs y ^ 2) n.
Proof.
  unfold psi_series, exp_term.
  assert (Hf := INR_fact_lt_0 n). assert (Hg := INR_fact_lt_0 (2 * n + 1)).
  assert (Hd := fact_double_ge n). assert (Hq : 0 < sqrt PI) by apply sqrt_lt_R0, PI_RGT_0.
  assert (Hgo := gamma_odd_le n). assert (Hgp := gamma_odd_pos n).
  assert (Hpsi : Rabs (psi_odd n) <= 2 * INR (S n)).
  { apply Rabs_le. rewrite S_INR. assert (H := psi_odd_bounds n).
    assert (Hn := pos_INR n). lra. }
  assert (Hs : 1 <= INR (S n)) by (apply (le_INR 1); lia).
  unfold Rdiv. rewrite !Rabs_mult, (Rabs_pos_eq (gamma_odd n)) by lra.
  rewrite (Rabs_pos_eq (/ _)) by (left; now apply Rinv_0_lt_compat).
  rewrite <- RPow_abs. replace (2 * n + 1)%nat with (1 + 2 * n)%nat at 1 by lia.
  rewrite pow_add, pow_mult, pow_1.
  assert (Hp : 0 <= (Rabs y ^ 2) ^ n) by (apply pow_le, pow2_ge_0).
  assert (Ha := Rabs_pos y). assert (Hpa := Rabs_pos (psi_odd n)).
  set (p := (Rabs y ^ 2) ^ n) in *. set (a := Rabs y) in *.
  set (f := INR (fact n)) in *. set (g := INR (fact (2 * n + 1))) in *.
  set (s := INR (S n)) in *. set (d := Rabs (psi_odd n)) in *.
  set (G := gamma_odd n) in *. set (q := sqrt PI) in *.
  assert (Hnum : d * G <= 2 * s * (q * f)).
  { apply Rmult_le_compat; lra. }
  assert (Hig : / g <= / (s * f * f)).
  { apply Rinv_le_contravar; [| exact Hd]. apply Rmult_lt_0_compat; nra. }
  assert (Hig0 : 0 < / g) by now apply Rinv_0_lt_compat.
  assert (Hap : 0 <= a * p) by now apply Rmult_le_pos.
  replace (d * G * (a * p) * / g) with ((d * G) * / g * (a * p)) by ring.
  replace (2 * q * a * (p * / f)) with ((2 * s * (q * f)) * / (s * f * f) * (a * p))
    by (field; lra).
  apply Rmult_le_compat_r; [exact Hap |].
  apply Rmult_le_compat; try lra. nra.
Qed.

Lemma psi_series_cv y :
  exists l, infinite_sum (psi_series y) l
            /\ Rabs (l - - 2 * ln 2 * sqrt PI * y)
               <= 2 * sqrt PI * Rabs y * (exp (Rabs y ^ 2) - 1).
Proof.
  destruct (exp_dominated_cv (psi_series y) (2 * sqrt PI * Rabs y) (Rabs y ^ 2))
    as [l [Hl Hb]].
  - apply pow2_ge_0.
  - apply psi_series_dominated.
  - exists l. split; [exact Hl |].
    replace (- 2 * ln 2 * sqrt PI * y) with (psi_series y 0); [exact Hb |].
    unfold psi_series. cbn. field.
Qed.

Lemma _w2_halves x l :
  infinite_sum (psi_series (1.414 * x)) l ->
  _w2 gamma_on_halves digamma_on_halves x = l.
Proof.
  intros Hl. unfold _w2. apply nsum_spec.
  apply infinite_sum_ext with (2 := Hl). intros n.
  symmetry. apply middle_term_halves.
Qed.

Lemma exp_le_inv z : 0 <= z < 1 -> exp z <= / (1 - z).
Proof.
  intros [Hz Hz1].
  assert (H := exp_ineq1_le (- z)). rewrite exp_Ropp in H.
  assert (He := exp_pos z).
  rewrite <- (Rinv_inv (exp z)). apply Rinv_le_contravar; lra.
Qed.

(** For small [y <> 0] the first term of the [W2] series decides the sign of
    its sum, which is opposite to the sign of [y]. *)
Lemma psi_series_sum_sign y l :
  y <> 0 -> Rabs y ^ 2 <= / 4 -> infinite_sum (psi_series y) l -> l * y < 0.
Proof.
  intros Hy Hz Hl.
  destruct (psi_series_cv y) as (l' & Hl' & Hb).
  rewrite (uniqueness_sum _ _ _ Hl Hl'). clear l Hl.
  assert (Ha : 0 < Rabs y) by now apply Rabs_pos_lt.
  assert (Hq : 0 < sqrt PI) by apply sqrt_lt_R0, PI_RGT_0.
  assert (Hln := ln_lt_2).
  assert (Hz0 : 0 <= Rabs y ^ 2) by apply pow2_ge_0.
  assert (He : exp (Rabs y ^ 2) - 1 <= / 3).
  { assert (H := exp_le_inv (Rabs y ^ 2) ltac:(lra)).
    assert (H' : / (1 - Rabs y ^ 2) <= / (3 / 4)) by (apply Rinv_le_contravar; lra).
    replace (/ (3 / 4)) with (4 / 3) in H' by field. lra. }
  assert (Hb' : Rabs (l' - - 2 * ln 2 * sqrt PI * y) <= 2 * sqrt PI * Rabs y * / 3).
  { eapply Rle_trans; [exact Hb |]. apply Rmult_le_compat_l; [nra | exact He]. }
  apply Rabs_le_bounds in Hb'.
  assert (Hqa : 0 < sqrt PI * Rabs y) by now apply Rmult_lt_0_compat.
  assert (Hlk : / 2 * (sqrt PI * Rabs y) < ln 2 * (sqrt PI * Rabs y))
    by now apply Rmult_lt_compat_r.
  destruct (Rle_lt_dec 0 y) as [Hpos | Hneg].
  - rewrite (Rabs_pos_eq y Hpos) in *.
    assert (Hl : l' < 0) by lra. nra.
  - rewrite (Rabs_left y Hneg) in *.
    assert (Hl : 0 < l') by lra. nra.
Qed.

Lemma _w2_halves_sign x :
  x <> 0 -> Rabs (1.414 * x) ^ 2 <= / 4 ->
  _w2 gamma_on_halves digamma_on_halves x * x < 0.
Proof.
  intros Hx Hz.
  destruct (psi_series_cv (1.414 * x)) as (l & Hl & _).
  rewrite (_w2_halves x l Hl).
  assert (H := psi_series_sum_sign (1.414 * x) l ltac:(lra) Hz Hl). nra.
Qed.

Lemma half_model_normalized x : normalized_threshold half_model x = x.
Proof.
  unfold normalized_threshold. cbn [mu theta sigma half_model].
  replace (2 * (1 / 2)) with 1 by field. rewrite sqrt_1. field.
Qed.

(** ** Evaluation of the primitive operations *)

Lemma py_div_ok x y : y <> 0 -> py_div x y = Ret (x / y).
Proof. intros H. unfold py_div. now destruct (Req_dec_T y 0). Qed.

Lemma py_div_zero x : py_div x 0 = Raise ZeroDivisionError.
Proof. unfold py_div. destruct (Req_dec_T 0 0); congruence. Qed.

Lemma np_div_ok x y : y <> 0 -> np_div x y = Ret (x / y).
Proof. intros H. unfold np_div. now destruct (Req_dec_T y 0). Qed.

Lemma np_div_zero x : np_div x 0 = NonFinite.
Proof. unfold np_div. destruct (Req_dec_T 0 0); congruence. Qed.

Lemma np_sqrt_ok x : 0 <= x -> np_sqrt x = Ret (sqrt x).
Proof. intros H. unfold np_sqrt. destruct (Rlt_dec x 0); [lra | reflexivity]. Qed.

Lemma np_sqrt_neg x : x < 0 -> np_sqrt x = NonFinite.
Proof. intros H. unfold np_sqrt. destruct (Rlt_dec x 0); [reflexivity | lra]. Qed.

Lemma _erfi_scaler_ok self x :
  0 <= mu self -> sigma self <> 0 ->
  _erfi_scaler self x = Ret (scaled_erfi self x).
Proof.
  intros Hmu Hs. unfold _erfi_scaler, scaled_erfi.
  rewrite np_sqrt_ok by exact Hmu. cbn [bind].
  rewrite np_div_ok by exact Hs. reflexivity.
Qed.

Lemma expected_trade_length_ok self a m :
  0 < mu self -> sigma self <> 0 ->
  expected_trade_length self a m
  = Ret (PI / mu self * (scaled_erfi self m - scaled_erfi self a)).
Proof.
  intros Hmu Hs. unfold expected_trade_length.
  rewrite py_div_ok by lra. cbn [bind].
  rewrite !_erfi_scaler_ok by (trivial; lra). reflexivity.
Qed.

Lemma scaled_erfi_increasing self x y :
  0 < mu self -> 0 < sigma self -> x < y -> scaled_erfi self x < scaled_erfi self y.
Proof.
  intros Hmu Hs Hxy. apply erfi_increasing.
  assert (Hq : 0 < sqrt (mu self)) by now apply sqrt_lt_R0.
  assert (Hi : 0 < / sigma self) by now apply Rinv_0_lt_compat.
  unfold Rdiv. apply Rmult_lt_compat_r; [exact Hi |]. nra.
Qed.

Lemma scaled_erfi_injective self x y :
  0 < mu self -> sigma self <> 0 -> scaled_erfi self x = scaled_erfi self y -> x = y.
Proof.
  intros Hmu Hs E. apply erfi_injective in E.
  assert (Hq : 0 < sqrt (mu self)) by now apply sqrt_lt_R0.
  unfold Rdiv in E. apply Rmult_eq_reg_r in E; [| now apply Rinv_neq_0_compat].
  apply Rmult_eq_reg_r in E; lra.
Qed.

Lemma unit_model_scaled_erfi x : scaled_erfi unit_model x = erfi x.
Proof.
  unfold scaled_erfi. cbn [mu theta sigma unit_model]. rewrite sqrt_1. f_equal. field.
Qed.

(** ** Expected trade length *)

Lemma unit_model_trade_length :
  expected_trade_length unit_model (-1) 1 = Ret (PI / 1 * (erfi 1 - erfi (-1))).
Proof.
  rewrite expected_trade_length_ok by (cbn; lra).
  now rewrite !unit_model_scaled_erfi.
Qed.

Lemma unit_model_trade_length_value : PI / 1 * (erfi 1 - erfi (-1)) = 2 * PI * erfi 1.
Proof. replace (-1) with (- (1)) by lra. rewrite erfi_odd. field. Qed.

Lemma two_PI_erfi_1_bounds : 10.3699 < 2 * PI * erfi 1 < 10.36994.
Proof.
  destruct sqrt_PI_bounds as [Hlo Hhi].
  destruct erfi_sum_1_bounds as [Slo Shi].
  assert (E : 2 * PI * erfi 1 = 4 * sqrt PI * erfi_sum 1).
  { assert (Hpi := PI_RGT_0).
    assert (Hsq : sqrt PI * sqrt PI = PI) by (apply sqrt_sqrt; lra).
    unfold erfi. rewrite <- Hsq at 1. field. lra. }
  rewrite E. split; nra.
Qed.

Lemma trade_length_value_pos self a m :
  0 < mu self -> 0 < sigma self -> a < m ->
  0 < PI / mu self * (scaled_erfi self m - scaled_erfi self a).
Proof.
  intros Hmu Hs Ham. apply Rmult_lt_0_compat.
  - apply Rdiv_lt_0_compat; [apply PI_RGT_0 | exact Hmu].
  - assert (H := scaled_erfi_increasing self a m Hmu Hs Ham). lra.
Qed.

(** C1.  Under valid parameters [expected_trade_length a m] returns
    [(pi / mu) * (scaled_erfi m - scaled_erfi a)]; in the scenario
    [mu = 1, theta = 0, sigma = 1, a = -1, m = 1] this is
    [pi * (erfi 1 - erfi (-1)) = 2 * pi * erfi 1], which lies between
    [10.3699] and [10.36994]. *)
Theorem expected_trade_length_formula :
  (forall self a m, 0 < mu self -> sigma self <> 0 ->
     expected_trade_length self a m
     = Ret (PI / mu self * (scaled_erfi self m - scaled_erfi self a)))
  /\ expected_trade_length unit_model (-1) 1 = Ret (PI / 1 * (erfi 1 - erfi (-1)))
  /\ PI / 1 * (erfi 1 - erfi (-1)) = 2 * PI * erfi 1
  /\ 10.3699 < 2 * PI * erfi 1 < 10.36994.
Proof.
  split; [| split; [| split]].
  - intros self a m Hmu Hs. unfold expected_trade_length.
    rewrite py_div_ok by lra. cbn [bind].
    rewrite !_erfi_scaler_ok by (trivial; lra). reflexivity.
  - exact unit_model_trade_length.
  - exact unit_model_trade_length_value.
  - exact two_PI_erfi_1_bounds.
Qed.

Lemma expected_trade_length_formula_witness :
  0 < mu unit_model /\ sigma unit_model <> 0
  /\ expected_trade_length unit_model (-1) 1
     = Ret (PI / mu unit_model
            * (scaled_erfi unit_model 1 - scaled_erfi unit_model (-1))).
Proof.
  assert (Hmu : 0 < mu unit_model) by (cbn; lra).
  assert (Hs : sigma unit_model <> 0) by (cbn; lra).
  split; [exact Hmu | split; [exact Hs |]].
  exact (proj1 expected_trade_length_formula unit_model (-1) 1 Hmu Hs).
Defined.



Lemma expected_trade_length_swap self a m :
  expected_trade_length self m a = omap Ropp (expected_trade_length self a m).
Proof.
  unfold expected_trade_length, _erfi_scaler, omap, py_div, np_sqrt, np_div.
  destruct (Req_dec_T (mu self) 0); [reflexivity |].
  destruct (Rlt_dec (mu self) 0); [reflexivity |].
  destruct (Req_dec_T (sigma self) 0); [reflexivity |].
  cbn [bind]. f_equal. ring.
Qed.

(** C10.  [expected_trade_length] is antisymmetric in its two arguments:
    [expected_trade_length m a] is the opposite of [expected_trade_length a m]
    (and fails exactly as it does, when it fails); under valid parameters
    [expected_trade_length a a] returns [0], and nothing is raised. *)
Theorem expected_trade_length_antisym self a m :
  expected_trade_length self m a = omap Ropp (expected_trade_length self a m)
  /\ (0 < mu self -> sigma self <> 0 ->
      (exists t, expected_trade_length self a m = Ret t
                 /\ expected_trade_length self m a = Ret (- t))
      /\ expected_trade_length self a a = Ret 0).
Proof.
  split; [apply expected_trade_length_swap |].
  intros Hmu Hs.
  rewrite !expected_trade_length_ok by assumption.
  split.
  - eexists. split; [reflexivity |]. f_equal. ring.
  - f_equal. ring.
Qed.

Lemma expected_trade_length_antisym_witness :
  expected_trade_length unit_model 1 (-1)
  = omap Ropp (expected_trade_length unit_model (-1) 1)
  /\ (exists t, expected_trade_length unit_model (-1) 1 = Ret t
                /\ expected_trade_length unit_model 1 (-1) = Ret (- t))
  /\ expected_trade_length unit_model (-1) (-1) = Ret 0.
Proof.
  destruct (expected_trade_length_antisym unit_model (-1) 1) as [Hswap Hvalid].
  split; [exact Hswap |].
  apply Hvalid; cbn; lra.
Defined.

Lemma expected_trade_length_nonzero self a m :
  0 < mu self -> sigma self <> 0 -> a <> m ->
  PI / mu self * (scaled_erfi self m - scaled_erfi self a) <> 0.
Proof.
  intros Hmu Hs Ham E.
  assert (Hk : 0 < PI / mu self)
    by (apply Rdiv_lt_0_compat; [apply PI_RGT_0 | exact Hmu]).
  apply Rmult_integral in E. destruct E as [E | E]; [lra |].
  apply Ham. symmetry. apply (scaled_erfi_injective self); trivial. lra.
Qed.

(** ** Expected return *)

Lemma expected_return_ok self a m c t :
  expected_trade_length self a m = Ret t -> t <> 0 ->
  expected_return self a m c = Ret ((m - a - c) / t).
Proof.
  intros Ht Hne. unfold expected_return. rewrite Ht. cbn [bind].
  now apply np_div_ok.
Qed.

(** C4.  Under valid parameters and [a <> m], [expected_return a m c] returns
    [(m - a - c) / expected_trade_length a m]; in the scenario [mu = 1],
    [theta = 0], [sigma = 1], [a = -1], [m = 1], [c = 0.1] the result is
    [(1 - (-1) - 0.1) / expected_trade_length (-1) 1], between [0.1832] and
    [0.1833]. *)
Theorem expected_return_formula :
  (forall self a m c, 0 < mu self -> sigma self <> 0 -> a <> m ->
     exists t, expected_trade_length self a m = Ret t /\ t <> 0
               /\ expected_return self a m c = Ret ((m - a - c) / t))
  /\ (exists t, expected_trade_length unit_model (-1) 1 = Ret t
                /\ expected_return unit_model (-1) 1 0.1 = Ret ((1 - (-1) - 0.1) / t)
                /\ 0.1832 < (1 - (-1) - 0.1) / t < 0.1833).
Proof.
  assert (G : forall self a m c, 0 < mu self -> sigma self <> 0 -> a <> m ->
     exists t, expected_trade_length self a m = Ret t /\ t <> 0
               /\ expected_return self a m c = Ret ((m - a - c) / t)).
  { intros self a m c Hmu Hs Ham.
    exists (PI / mu self * (scaled_erfi self m - scaled_erfi self a)).
    assert (Ht := expected_trade_length_ok self a m Hmu Hs).
    assert (Hne := expected_trade_length_nonzero self a m Hmu Hs Ham).
    split; [exact Ht | split; [exact Hne |]].
    now apply expected_return_ok. }
  split; [exact G |].
  assert (Hv := unit_model_trade_length).
  assert (He := unit_model_trade_length_value).
  destruct two_PI_erfi_1_bounds as [Hlo Hhi].
  exists (PI / 1 * (erfi 1 - erfi (-1))).
  split; [exact Hv |]. rewrite He.
  split.
  - rewrite <- He. apply expected_return_ok; [exact Hv | rewrite He; lra].
  - assert (Hinv : / 10.36994 < / (2 * PI * erfi 1) < / 10.3699).
    { split; apply Rinv_lt_contravar; nra. }
    unfold Rdiv. split; nra.
Qed.

Lemma expected_return_formula_witness :
  exists t, expected_trade_length unit_model (-1) 1 = Ret t /\ t <> 0
            /\ expected_return unit_model (-1) 1 0.1 = Ret ((1 - -1 - 0.1) / t).
Proof.
  apply (proj1 expected_return_formula unit_model (-1) 1 0.1); cbn; lra.
Defined.

(** ** Variance of the trade length *)

Lemma trade_length_variance_ok gamma digamma self a m :
  0 < mu self -> sigma self <> 0 ->
  trade_length_variance gamma digamma self a m
  = Ret ((_w1 gamma (normalized_threshold self m)
          - _w1 gamma (normalized_threshold self a)
          - _w2 gamma digamma (normalized_threshold self m)
          + _w2 gamma digamma (normalized_threshold self a)) / (mu self) ^ 2).
Proof.
  intros Hmu Hs. unfold trade_length_variance.
  rewrite np_sqrt_ok by lra. cbn [bind].
  rewrite !np_div_ok by exact Hs. cbn [bind].
  rewrite py_div_ok by (apply pow_nonzero; lra).
  reflexivity.
Qed.

Lemma _w2_series gamma digamma x l :
  infinite_sum (fun n => W2_term gamma digamma x (S n)) l -> _w2 gamma digamma x = l.
Proof.
  intros Hl. unfold _w2. apply nsum_spec.
  apply infinite_sum_ext with (2 := Hl). intros n. reflexivity.
Qed.

(** C2.  Under valid parameters [trade_length_variance a m] is
    [(W1 c1 - W1 c2 - W2 c1 + W2 c2) / mu^2] with [c1] and [c2] the normalized
    thresholds of [m] and [a]; it depends on the helpers through their values
    at [c1] and [c2] only; and [W2 x] is the sum over [k >= 1] of
    [(psi((2k-1)/2) - psi(1)) * Gamma((2k-1)/2) * (1.414 x)^(2k-1) / (2k-1)!]. *)
Theorem trade_length_variance_formula gamma digamma self a m :
  0 < mu self -> sigma self <> 0 ->
  let c1 := (m - theta self) * sqrt (2 * mu self) / sigma self in
  let c2 := (a - theta self) * sqrt (2 * mu self) / sigma self in
  trade_length_variance gamma digamma self a m
  = Ret ((_w1 gamma c1 - _w1 gamma c2 - _w2 gamma digamma c1 + _w2 gamma digamma c2)
         / (mu self) ^ 2)
  /\ (forall gamma' digamma',
        _w1 gamma' c1 = _w1 gamma c1 -> _w1 gamma' c2 = _w1 gamma c2 ->
        _w2 gamma' digamma' c1 = _w2 gamma digamma c1 ->
        _w2 gamma' digamma' c2 = _w2 gamma digamma c2 ->
        trade_length_variance gamma' digamma' self a m
        = trade_length_variance gamma digamma self a m)
  /\ (forall x l,
        infinite_sum (fun n => W2_term gamma digamma x (S n)) l ->
        _w2 gamma digamma x = l).
Proof.
  intros Hmu Hs c1 c2.
  split; [| split].
  - exact (trade_length_variance_ok gamma digamma self a m Hmu Hs).
  - intros gamma' digamma' E1 E2 E3 E4.
    rewrite !trade_length_variance_ok by assumption.
    fold (normalized_threshold self m) in c1.
    fold (normalized_threshold self a) in c2.
    fold c1 c2. now rewrite E1, E2, E3, E4.
  - intros x l. apply _w2_series.
Qed.

Lemma trade_length_variance_formula_witness :
  exists v l,
    trade_length_variance gamma_on_halves digamma_on_halves half_model (-0.1) 0.1 = Ret v
    /\ infinite_sum (fun n => W2_term gamma_on_halves digamma_on_halves 0.1 (S n)) l
    /\ _w2 gamma_on_halves digamma_on_halves 0.1 = l.
Proof.
  assert (Hmu : 0 < mu half_model) by (cbn; lra).
  assert (Hs : sigma half_model <> 0) by (cbn; lra).
  destruct (trade_length_variance_formula gamma_on_halves digamma_on_halves
              half_model (-0.1) 0.1 Hmu Hs) as (Hv & _ & Hw).
  destruct (psi_series_cv (1.414 * 0.1)) as (l & Hl & _).
  assert (Hl' : infinite_sum
                  (fun n => W2_term gamma_on_halves digamma_on_halves 0.1 (S n)) l).
  { apply infinite_sum_ext with (2 := Hl). intros n.
    symmetry. apply (middle_term_halves 0.1 n). }
  eexists. exists l. split; [exact Hv |]. split; [exact Hl' |].
  apply Hw. exact Hl'.
Defined.

(** ** The helper [W1] *)

Lemma W1_squared_difference_nonneg gamma x : 0 <= W1_squared_difference gamma x.
Proof. unfold W1_squared_difference. apply pow2_ge_0. Qed.

(** C3, as stated, fails: at [x = -1] the code's [W1] is negative, which no
    square is. *)
Lemma w1_not_squared_difference :
  _w1 gamma_on_halves (-1) <> W1_squared_difference gamma_on_halves (-1).
Proof.
  intros E.
  assert (Hneg : _w1 gamma_on_halves (-1) < 0) by (apply _w1_halves_neg; lra).
  assert (Hpos := W1_squared_difference_nonneg gamma_on_halves (-1)).
  rewrite E in Hneg. lra.
Qed.

(** C3, amended.  [W1 x] is the difference of two squares: the square of half
    the sum over [k >= 1] of [Gamma(k/2) (1.414 x)^k / k!], minus the square of
    half the sum of the same terms with alternating sign [(-1)^k]. *)
Theorem w1_difference_of_squares gamma x P N :
  infinite_sum (fun n => W1_term gamma x (S n)) P ->
  infinite_sum (fun n => W1_term gamma x (S n) * (-1) ^ S n) N ->
  _w1 gamma x = (P / 2) ^ 2 - (N / 2) ^ 2.
Proof.
  intros HP HN. unfold _w1.
  rewrite (nsum_spec (common_term gamma x) 1 P).
  - rewrite (nsum_spec (fun k => common_term gamma x k * (-1) ^ k) 1 N).
    + reflexivity.
    + apply infinite_sum_ext with (2 := HN). intros n. reflexivity.
  - apply infinite_sum_ext with (2 := HP). intros n. reflexivity.
Qed.

Lemma w1_difference_of_squares_witness :
  exists P N,
    infinite_sum (fun n => W1_term gamma_on_halves (-1) (S n)) P
    /\ infinite_sum (fun n => W1_term gamma_on_halves (-1) (S n) * (-1) ^ S n) N
    /\ _w1 gamma_on_halves (-1) = (P / 2) ^ 2 - (N / 2) ^ 2.
Proof.
  destruct (gamma_series_cv (1.414 * -1)) as [P HP].
  destruct (gamma_series_cv (- (1.414 * -1))) as [N HN].
  assert (HP' : infinite_sum (fun n => W1_term gamma_on_halves (-1) (S n)) P).
  { apply infinite_sum_ext with (2 := HP). intros n.
    symmetry. apply (common_term_halves (-1) n). }
  assert (HN' : infinite_sum
                  (fun n => W1_term gamma_on_halves (-1) (S n) * (-1) ^ S n) N).
  { apply infinite_sum_ext with (2 := HN). intros n.
    symmetry. apply (common_term_alt_halves (-1) n). }
  exists P, N. split; [exact HP' |]. split; [exact HN' |].
  exact (w1_difference_of_squares gamma_on_halves (-1) P N HP' HN').
Defined.

(** The variance of the trade length is positive for the thresholds
    [-0.1] and [0.1] around the mean of [half_model]. *)
Lemma half_model_variance_pos :
  exists v, trade_length_variance gamma_on_halves digamma_on_halves half_model (-0.1) 0.1
            = Ret v /\ 0 < v.
Proof.
  eexists. split.
  - apply trade_length_variance_ok; cbn; lra.
  - rewrite !half_model_normalized. cbn [mu half_model].
    assert (H1 : 0 < _w1 gamma_on_halves 0.1) by (apply _w1_halves_pos; lra).
    assert (H2 : _w1 gamma_on_halves (-0.1) < 0) by (apply _w1_halves_neg; lra).
    assert (H3 := _w2_halves_sign 0.1).
    assert (H4 := _w2_halves_sign (-0.1)).
    assert (Hz : forall x, Rabs x = 0.1414 -> Rabs x ^ 2 <= / 4) by (intros x ->; lra).
    assert (E3 : Rabs (1.414 * 0.1) = 0.1414) by (rewrite Rabs_pos_eq; lra).
    assert (E4 : Rabs (1.414 * -0.1) = 0.1414)
      by (rewrite <- Rabs_Ropp, Rabs_pos_eq; lra).
    specialize (H3 ltac:(lra) (Hz _ E3)). specialize (H4 ltac:(lra) (Hz _ E4)).
    apply Rdiv_lt_0_compat; nra.
Qed.

(** ** Variance of the return and Sharpe ratio *)

Lemma return_variance_ok gamma digamma self a m c t v :
  expected_trade_length self a m = Ret t -> t <> 0 ->
  trade_length_variance gamma digamma self a m = Ret v ->
  return_variance gamma digamma self a m c = Ret ((m - a - c) ^ 2 * v / t ^ 3).
Proof.
  intros Ht Hne Hv. unfold return_variance. rewrite Hv, Ht. cbn [bind].
  apply np_div_ok. now apply pow_nonzero.
Qed.

(** C5.  When the expected trade length [t] is not zero and
    [return_variance a m c = (m - a - c)^2 * trade_length_variance a m / t^3]
    is positive, [sharpe_ratio a m c rf] returns
    [(expected_return a m c - rf / t) / sqrt (return_variance a m c)]. *)
Theorem sharpe_ratio_formula gamma digamma self a m c rf t v :
  expected_trade_length self a m = Ret t -> t <> 0 ->
  trade_length_variance gamma digamma self a m = Ret v ->
  0 < (m - a - c) ^ 2 * v / t ^ 3 ->
  exists er rv,
    expected_return self a m c = Ret er
    /\ return_variance gamma digamma self a m c = Ret rv
    /\ rv = (m - a - c) ^ 2 * v / t ^ 3
    /\ sharpe_ratio gamma digamma self a m c rf = Ret ((er - rf / t) / sqrt rv).
Proof.
  intros Ht Hne Hv Hpos.
  assert (Her := expected_return_ok self a m c t Ht Hne).
  assert (Hrv := return_variance_ok gamma digamma self a m c t v Ht Hne Hv).
  exists ((m - a - c) / t), ((m - a - c) ^ 2 * v / t ^ 3).
  split; [exact Her |]. split; [exact Hrv |]. split; [reflexivity |].
  unfold sharpe_ratio. rewrite Ht. cbn [bind].
  rewrite np_div_ok by exact Hne. cbn [bind].
  rewrite Her, Hrv. cbn [bind].
  rewrite np_sqrt_ok by lra. cbn [bind].
  apply np_div_ok.
  assert (H := sqrt_lt_R0 _ Hpos). lra.
Qed.

Lemma sharpe_ratio_formula_witness :
  exists t v er rv,
    expected_trade_length half_model (-0.1) 0.1 = Ret t /\ t <> 0
    /\ trade_length_variance gamma_on_halves digamma_on_halves half_model (-0.1) 0.1
       = Ret v
    /\ 0 < (0.1 - -0.1 - 0.01) ^ 2 * v / t ^ 3
    /\ expected_return half_model (-0.1) 0.1 0.01 = Ret er
    /\ return_variance gamma_on_halves digamma_on_halves half_model (-0.1) 0.1 0.01
       = Ret rv
    /\ sharpe_ratio gamma_on_halves digamma_on_halves half_model (-0.1) 0.1 0.01 0.02
       = Ret ((er - 0.02 / t) / sqrt rv).
Proof.
  assert (Hmu : 0 < mu half_model) by (cbn; lra).
  assert (Hsg : 0 < sigma half_model) by (cbn; lra).
  assert (Ht := expected_trade_length_ok half_model (-0.1) 0.1 Hmu ltac:(lra)).
  assert (Htpos := trade_length_value_pos half_model (-0.1) 0.1 Hmu Hsg ltac:(lra)).
  set (t := PI / mu half_model
            * (scaled_erfi half_model 0.1 - scaled_erfi half_model (-0.1))) in *.
  destruct half_model_variance_pos as (v & Hv & Hvpos).
  assert (Hne : t <> 0) by lra.
  assert (Hpos : 0 < (0.1 - -0.1 - 0.01) ^ 2 * v / t ^ 3).
  { apply Rdiv_lt_0_compat; [| now apply pow_lt].
    apply Rmult_lt_0_compat; [| exact Hvpos]. lra. }
  destruct (sharpe_ratio_formula gamma_on_halves digamma_on_halves half_model
              (-0.1) 0.1 0.01 0.02 t v Ht Hne Hv Hpos) as (er & rv & Her & Hrv & _ & Hs).
  exists t, v, er, rv. repeat split; assumption.
Defined.

(** ** The threshold optimizers *)

Lemma equation_ok self c a :
  0 < mu self -> sigma self <> 0 ->
  equation self c a = Ret (first_order_condition self c a).
Proof.
  intros Hmu Hs. unfold equation, first_order_condition.
  rewrite np_div_ok by (apply pow_nonzero; exact Hs). cbn [bind].
  rewrite py_div_ok by lra. cbn [bind].
  assert (Hk : 0 < PI / mu self)
    by (apply Rdiv_lt_0_compat; [apply PI_RGT_0 | exact Hmu]).
  rewrite np_sqrt_ok by lra. cbn [bind].
  rewrite _erfi_scaler_ok by (trivial; lra). reflexivity.
Qed.

Lemma maximize_expected_return_ok _hybrd self c r :
  _hybrd (equation self c) (theta self - c - 1e-2) = Ret r ->
  get_threshold_by_maximize_expected_return _hybrd self c
  = Ret (root_x r, 2 * theta self - root_x r).
Proof.
  intros Hr. unfold get_threshold_by_maximize_expected_return, fsolve.
  rewrite Hr. reflexivity.
Qed.

Lemma maximize_sharpe_ratio_ok gamma digamma _nm self c rf r :
  _nm (negative_sharpe_ratio gamma digamma self c rf) (theta self - rf - c) = Ret r ->
  get_threshold_by_maximize_sharpe_ratio gamma digamma _nm self c rf
  = Ret (sol_x r, 2 * theta self - sol_x r).
Proof.
  intros Hr. unfold get_threshold_by_maximize_sharpe_ratio, minimize.
  rewrite Hr. reflexivity.
Qed.

Lemma maximize_expected_return_inv _hybrd self c a m :
  get_threshold_by_maximize_expected_return _hybrd self c = Ret (a, m) ->
  m = 2 * theta self - a
  /\ exists r, _hybrd (equation self c) (theta self - c - 1e-2) = Ret r /\ root_x r = a.
Proof.
  unfold get_threshold_by_maximize_expected_return, fsolve. intros H.
  destruct (_hybrd (equation self c) (theta self - c - 1e-2)) as [r | | e];
    cbn in H; try discriminate.
  injection H as <- <-. split; [reflexivity | now exists r].
Qed.

Lemma maximize_sharpe_ratio_inv gamma digamma _nm self c rf a m :
  get_threshold_by_maximize_sharpe_ratio gamma digamma _nm self c rf = Ret (a, m) ->
  m = 2 * theta self - a
  /\ exists r, _nm (negative_sharpe_ratio gamma digamma self c rf) (theta self - rf - c)
               = Ret r /\ sol_x r = a.
Proof.
  unfold get_threshold_by_maximize_sharpe_ratio, minimize. intros H.
  destruct (_nm (negative_sharpe_ratio gamma digamma self c rf) (theta self - rf - c))
    as [r | | e]; cbn in H; try discriminate.
  injection H as <- <-. split; [reflexivity | now exists r].
Qed.

Lemma first_order_condition_reduced self c a :
  0 < mu self -> sigma self <> 0 ->
  let d := a - theta self in
  let u := d * sqrt (mu self) / sigma self in
  first_order_condition self c a = exp (u * u) * (2 * d + c) - 2 * d * erfi_sum u.
Proof.
  intros Hmu Hs d u. unfold first_order_condition, scaled_erfi, erfi.
  fold d. fold u.
  assert (Hq : 0 < sqrt (mu self)) by now apply sqrt_lt_R0.
  assert (Hp : 0 < sqrt PI) by apply sqrt_lt_R0, PI_RGT_0.
  assert (Hsq : sqrt (mu self) * sqrt (mu self) = mu self) by (apply sqrt_sqrt; lra).
  assert (Eq : mu self * d ^ 2 / sigma self ^ 2 = u * u).
  { unfold u. rewrite <- Hsq at 1. field. exact Hs. }
  rewrite Eq, sqrt_div by (try apply Rlt_le, PI_RGT_0; exact Hmu).
  f_equal. unfold u. field. repeat split; lra.
Qed.

(** C6, as stated, fails: the optimizer returns the point at which the root
    finder stopped, root or not.  With [mu = 1], [theta = 0], [sigma = 1] and
    [c = 0.1], a root finder that makes no progress from the initial guess
    [-0.11] and reports [ier = 5] leaves the optimizer returning
    [(-0.11, 0.11)], where the first-order condition is above [0.09]. *)
Lemma root_finder_stops_off_root :
  get_threshold_by_maximize_expected_return (hybrd_stops_at (-0.11) 5) unit_model 0.1
  = Ret (-0.11, 2 * 0 - -0.11)
  /\ equation unit_model 0.1 (-0.11)
     = Ret (first_order_condition unit_model 0.1 (-0.11))
  /\ 0.09 < first_order_condition unit_model 0.1 (-0.11)
  /\ equation unit_model 0.1 (-0.11) <> Ret 0.
Proof.
  assert (Hmu : 0 < mu unit_model) by (cbn; lra).
  assert (Hs : sigma unit_model <> 0) by (cbn; lra).
  assert (He := equation_ok unit_model 0.1 (-0.11) Hmu Hs).
  assert (Hf : 0.09 < first_order_condition unit_model 0.1 (-0.11)).
  { rewrite first_order_condition_reduced by assumption. cbv zeta.
    cbn [mu theta sigma unit_model]. rewrite sqrt_1.
    replace ((-0.11 - 0) * 1 / 1) with (-0.11) by field.
    assert (H1 := erfi_sum_ge_1 (-0.11)).
    assert (Hx := exp_le_inv (-0.11 * -0.11) ltac:(lra)).
    assert (Hi : / (1 - -0.11 * -0.11) <= 1.02).
    { rewrite <- (Rinv_inv 1.02). apply Rinv_le_contravar; lra. }
    nra. }
  split; [| split; [exact He | split; [exact Hf |]]].
  - exact (maximize_expected_return_ok (hybrd_stops_at (-0.11) 5) unit_model 0.1
             {| root_x := -0.11; ier := 5 |} eq_refl).
  - rewrite He. intros E. injection E as E. lra.
Qed.

(** C6, amended.  Under valid parameters the return-maximizing optimizer runs
    the root finder on the first-order condition
    [exp(mu (a - theta)^2 / sigma^2) (2 (a - theta) + c)
     - sigma sqrt(pi / mu) scaled_erfi(a)]
    from the initial guess [theta - c - 0.01] and returns [(a, 2 theta - a)]
    for the point [a] at which the root finder stopped, whatever it reports
    about convergence.  So every pair returned has [a + m = 2 theta] (within
    [1e-6]), and its [a] is where the root finder stopped: a root of the
    first-order condition only if the root finder found one. *)
Theorem maximize_expected_return_symmetric _hybrd self c :
  0 < mu self -> sigma self <> 0 ->
  get_threshold_by_maximize_expected_return _hybrd self c
  = (r <- _hybrd (fun a => Ret (first_order_condition self c a))
             (theta self - c - 0.01) ;;
     Ret (root_x r, 2 * theta self - root_x r))
  /\ (forall a m,
        get_threshold_by_maximize_expected_return _hybrd self c = Ret (a, m) ->
        m = 2 * theta self - a
        /\ Rabs (a + m - 2 * theta self) <= 1e-6
        /\ exists flag,
             _hybrd (fun a => Ret (first_order_condition self c a))
                    (theta self - c - 0.01)
             = Ret {| root_x := a; ier := flag |}).
Proof.
  intros Hmu Hs.
  assert (E : equation self c = fun a => Ret (first_order_condition self c a)).
  { apply functional_extensionality. intros a. now apply equation_ok. }
  assert (Hprog : get_threshold_by_maximize_expected_return _hybrd self c
                  = (r <- _hybrd (fun a => Ret (first_order_condition self c a))
                             (theta self - c - 0.01) ;;
                     Ret (root_x r, 2 * theta self - root_x r))).
  { unfold get_threshold_by_maximize_expected_return, fsolve. rewrite E.
    replace 1e-2 with 0.01 by lra.
    now destruct (_hybrd _ (theta self - c - 0.01)). }
  split; [exact Hprog |].
  intros a m H. rewrite Hprog in H.
  destruct (_hybrd (fun a => Ret (first_order_condition self c a))
                   (theta self - c - 0.01)) as [[x flag] | | e];
    cbn in H; try discriminate.
  injection H as <- <-. split; [reflexivity |]. split.
  - replace (x + (2 * theta self - x) - 2 * theta self) with 0 by ring.
    rewrite Rabs_R0. lra.
  - now exists flag.
Qed.

Lemma maximize_expected_return_symmetric_witness :
  get_threshold_by_maximize_expected_return (hybrd_stops_at 0 1) unit_model 0
  = Ret (0, 2 * 0 - 0)
  /\ Rabs (0 + (2 * 0 - 0) - 2 * 0) <= 1e-6
  /\ first_order_condition unit_model 0 0 = 0.
Proof.
  assert (Hmu : 0 < mu unit_model) by (cbn; lra).
  assert (Hs : sigma unit_model <> 0) by (cbn; lra).
  destruct (maximize_expected_return_symmetric (hybrd_stops_at 0 1) unit_model 0
              Hmu Hs) as (Hprog & Hall).
  assert (Hg : get_threshold_by_maximize_expected_return (hybrd_stops_at 0 1)
                 unit_model 0 = Ret (0, 2 * 0 - 0)).
  { rewrite Hprog. reflexivity. }
  split; [exact Hg |]. split.
  - exact (proj1 (proj2 (Hall 0 (2 * 0 - 0) Hg))).
  - unfold first_order_condition.
    rewrite unit_model_scaled_erfi, erfi_0. cbn [mu theta sigma unit_model]. ring.
Defined.

(** C8, as stated, fails: a root finder that stops at [-0.11] reporting
    [ier = 2] (call budget used up) and a simplex that stops there reporting
    [success = False] both leave the optimizers returning a pair. *)
Lemma nonconvergence_returns_pair :
  get_threshold_by_maximize_expected_return (hybrd_stops_at (-0.11) 2) unit_model 0.1
  = Ret (-0.11, 2 * 0 - -0.11)
  /\ get_threshold_by_maximize_sharpe_ratio gamma_on_halves digamma_on_halves
       (neldermead_stops_at (-0.11) false) unit_model 0.1 0
     = Ret (-0.11, 2 * 0 - -0.11).
Proof.
  split.
  - exact (maximize_expected_return_ok (hybrd_stops_at (-0.11) 2) unit_model 0.1
             {| root_x := -0.11; ier := 2 |} eq_refl).
  - exact (maximize_sharpe_ratio_ok gamma_on_halves digamma_on_halves
             (neldermead_stops_at (-0.11) false) unit_model 0.1 0
             {| sol_x := -0.11; success := false |} eq_refl).
Qed.

(** C8, amended.  Neither optimizer raises [ConvergenceError] of its own:
    each returns the pair [(x, 2 theta - x)] for the point [x] at which its
    solver stopped, whatever the solver reports about convergence, and raises
    only what the solver call raises. *)
Theorem optimizers_return_last_iterate gamma digamma _hybrd _nm self c rf :
  (forall r,
     _hybrd (equation self c) (theta self - c - 0.01) = Ret r ->
     get_threshold_by_maximize_expected_return _hybrd self c
     = Ret (root_x r, 2 * theta self - root_x r))
  /\ (forall r,
        _nm (negative_sharpe_ratio gamma digamma self c rf) (theta self - rf - c) = Ret r ->
        get_threshold_by_maximize_sharpe_ratio gamma digamma _nm self c rf
        = Ret (sol_x r, 2 * theta self - sol_x r))
  /\ (forall e,
        get_threshold_by_maximize_expected_return _hybrd self c = Raise e ->
        _hybrd (equation self c) (theta self - c - 0.01) = Raise e)
  /\ (forall e,
        get_threshold_by_maximize_sharpe_ratio gamma digamma _nm self c rf = Raise e ->
        _nm (negative_sharpe_ratio gamma digamma self c rf) (theta self - rf - c)
        = Raise e).
Proof.
  assert (E : 1e-2 = 0.01) by lra.
  split; [| split; [| split]].
  - intros r Hr. apply maximize_expected_return_ok. now rewrite E.
  - intros r Hr. now apply maximize_sharpe_ratio_ok.
  - intros e. unfold get_threshold_by_maximize_expected_return, fsolve.
    rewrite E. destruct (_hybrd _ _); cbn [bind]; congruence.
  - intros e. unfold get_threshold_by_maximize_sharpe_ratio, minimize.
    destruct (_nm _ _); cbn [bind]; congruence.
Qed.

Lemma optimizers_return_last_iterate_witness :
  get_threshold_by_maximize_expected_return (hybrd_stops_at 0.3 4) half_model 0.05
  = Ret (0.3, 2 * 0 - 0.3)
  /\ get_threshold_by_maximize_sharpe_ratio gamma_on_halves digamma_on_halves
       (neldermead_stops_at 0.3 false) half_model 0.05 0.01
     = Ret (0.3, 2 * 0 - 0.3).
Proof.
  destruct (optimizers_return_last_iterate gamma_on_halves digamma_on_halves
              (hybrd_stops_at 0.3 4) (neldermead_stops_at 0.3 false)
              half_model 0.05 0.01) as (Hroot & Hmin & _).
  split.
  - exact (Hroot {| root_x := 0.3; ier := 4 |} eq_refl).
  - exact (Hmin {| sol_x := 0.3; success := false |} eq_refl).
Defined.

(** ** Errors *)

Lemma bind_raises_only A B (c : outcome A) (k : A -> outcome B) :
  raises_only_zero_division c -> (forall v, raises_only_zero_division (k v)) ->
  raises_only_zero_division (bind c k).
Proof.
  intros Hc Hk e. destruct c as [v | | e']; cbn [bind].
  - exact (Hk v e).
  - discriminate.
  - intros E. apply (Hc e). congruence.
Qed.

Lemma ret_raises_only A (v : A) : raises_only_zero_division (Ret v).
Proof. intros e H. discriminate. Qed.

Lemma py_div_raises_only x y : raises_only_zero_division (py_div x y).
Proof. intros e. unfold py_div. destruct (Req_dec_T y 0); congruence. Qed.

Lemma np_div_raises_only x y : raises_only_zero_division (np_div x y).
Proof. intros e. unfold np_div. destruct (Req_dec_T y 0); congruence. Qed.

Lemma np_sqrt_raises_only x : raises_only_zero_division (np_sqrt x).
Proof. intros e. unfold np_sqrt. destruct (Rlt_dec x 0); congruence. Qed.

Create HintDb raises.

#[local] Hint Resolve ret_raises_only py_div_raises_only np_div_raises_only
  np_sqrt_raises_only : raises.

Ltac raises_only :=
  repeat (apply bind_raises_only; [| intros ?]); auto with raises.

Lemma _erfi_scaler_raises_only self x : raises_only_zero_division (_erfi_scaler self x).
Proof. unfold _erfi_scaler. raises_only. Qed.

#[local] Hint Resolve _erfi_scaler_raises_only : raises.

Lemma expected_trade_length_raises_only self a m :
  raises_only_zero_division (expected_trade_length self a m).
Proof. unfold expected_trade_length. raises_only. Qed.

#[local] Hint Resolve expected_trade_length_raises_only : raises.

Lemma trade_length_variance_raises_only gamma digamma self a m :
  raises_only_zero_division (trade_length_variance gamma digamma self a m).
Proof. unfold trade_length_variance. raises_only. Qed.

#[local] Hint Resolve trade_length_variance_raises_only : raises.

Lemma sharpe_ratio_raises_only gamma digamma self a m c rf :
  raises_only_zero_division (sharpe_ratio gamma digamma self a m c rf).
Proof.
  unfold sharpe_ratio, expected_return, return_variance. raises_only.
Qed.

Lemma sharpe_ratio_nonpositive_variance gamma digamma self a m c rf rv :
  return_variance gamma digamma self a m c = Ret rv -> rv <= 0 ->
  sharpe_ratio gamma digamma self a m c rf = NonFinite.
Proof.
  intros Hrv Hle. unfold sharpe_ratio.
  destruct (expected_trade_length self a m) as [t | | e] eqn:Ht; cbn [bind].
  - unfold np_div at 1. destruct (Req_dec_T t 0) as [H0 | Hne]; [reflexivity |].
    cbn [bind]. rewrite (expected_return_ok self a m c t Ht Hne), Hrv. cbn [bind].
    destruct (Rle_lt_or_eq_dec _ _ Hle) as [Hlt | ->].
    + now rewrite np_sqrt_neg.
    + rewrite np_sqrt_ok, sqrt_0 by lra. cbn [bind]. apply np_div_zero.
  - reflexivity.
  - unfold return_variance in Hrv.
    destruct (trade_length_variance gamma digamma self a m); cbn [bind] in Hrv;
      try discriminate.
    rewrite Ht in Hrv. discriminate.
Qed.

(** C7, as stated, fails: with valid parameters and [a = m] the expected
    trade length is [0], and nothing is raised. *)
Lemma equal_thresholds_return_zero :
  expected_trade_length unit_model 0 0 = Ret 0
  /\ expected_trade_length unit_model 0 0 <> Raise DomainError.
Proof.
  assert (H : expected_trade_length unit_model 0 0 = Ret 0).
  { rewrite expected_trade_length_ok by (cbn; lra). f_equal. ring. }
  split; [exact H | rewrite H; discriminate].
Qed.

(** C7, amended.  No evaluation raises [DomainError].
    [expected_trade_length] raises [ZeroDivisionError] when [mu = 0], leaves
    the finite numbers when [mu < 0] or [sigma = 0], and otherwise returns a
    number, also for [sigma < 0] and for [a >= m]: [0] when [a = m], negative
    when [a > m] and [sigma > 0].  [sharpe_ratio] leaves the finite numbers,
    without raising, when [return_variance a m c <= 0]. *)
Theorem no_domain_error gamma digamma self a m c rf :
  expected_trade_length self a m <> Raise DomainError
  /\ sharpe_ratio gamma digamma self a m c rf <> Raise DomainError
  /\ (mu self = 0 -> expected_trade_length self a m = Raise ZeroDivisionError)
  /\ (mu self < 0 -> expected_trade_length self a m = NonFinite)
  /\ (0 < mu self -> sigma self = 0 -> expected_trade_length self a m = NonFinite)
  /\ (0 < mu self -> sigma self <> 0 ->
      exists t, expected_trade_length self a m = Ret t
                /\ (a = m -> t = 0)
                /\ (0 < sigma self -> m < a -> t < 0))
  /\ (forall rv, return_variance gamma digamma self a m c = Ret rv -> rv <= 0 ->
                 sharpe_ratio gamma digamma self a m c rf = NonFinite).
Proof.
  repeat apply conj.
  - intros H.
    assert (E := expected_trade_length_raises_only self a m _ H). discriminate.
  - intros H.
    assert (E := sharpe_ratio_raises_only gamma digamma self a m c rf _ H).
    discriminate.
  - intros H0. unfold expected_trade_length. rewrite H0, py_div_zero. reflexivity.
  - intros Hneg. unfold expected_trade_length, _erfi_scaler.
    rewrite py_div_ok by lra. cbn [bind]. now rewrite np_sqrt_neg.
  - intros Hmu H0. unfold expected_trade_length, _erfi_scaler.
    rewrite py_div_ok by lra. cbn [bind].
    rewrite np_sqrt_ok by lra. cbn [bind].
    rewrite H0, np_div_zero. reflexivity.
  - intros Hmu Hs.
    exists (PI / mu self * (scaled_erfi self m - scaled_erfi self a)).
    split; [now apply expected_trade_length_ok |]. split.
    + intros ->. ring.
    + intros Hsp Hma.
      assert (Hk : 0 < PI / mu self)
        by (apply Rdiv_lt_0_compat; [apply PI_RGT_0 | exact Hmu]).
      assert (H := scaled_erfi_increasing self m a Hmu Hsp Hma). nra.
  - intros rv. apply sharpe_ratio_nonpositive_variance.
Qed.

Lemma no_domain_error_witness :
  expected_trade_length degenerate_model (-1) 1 = Raise ZeroDivisionError
  /\ (exists t, expected_trade_length half_model 0.1 0.1 = Ret t /\ t = 0)
  /\ sharpe_ratio gamma_on_halves digamma_on_halves half_model (-0.1) 0.1 0.2 0.02
     = NonFinite.
Proof.
  destruct (no_domain_error gamma_on_halves digamma_on_halves degenerate_model
              (-1) 1 0 0) as (_ & _ & Hzero & _).
  destruct (no_domain_error gamma_on_halves digamma_on_halves half_model
              0.1 0.1 0 0) as (_ & _ & _ & _ & _ & Heq & _).
  destruct (no_domain_error gamma_on_halves digamma_on_halves half_model
              (-0.1) 0.1 0.2 0.02) as (_ & _ & _ & _ & _ & _ & Hvar).
  assert (Hmu : 0 < mu half_model) by (cbn; lra).
  assert (Hs : sigma half_model <> 0) by (cbn; lra).
  split; [apply Hzero; reflexivity |]. split.
  - destruct (Heq Hmu Hs) as (t & Ht & Hz & _). exists t. split; [exact Ht |].
    now apply Hz.
  - destruct half_model_variance_pos as (v & Hv & _).
    assert (Ht := expected_trade_length_ok half_model (-0.1) 0.1 Hmu Hs).
    assert (Hne := expected_trade_length_nonzero half_model (-0.1) 0.1 Hmu Hs
                     ltac:(lra)).
    apply (Hvar _ (return_variance_ok _ _ _ _ _ 0.2 _ _ Ht Hne Hv)).
    right. replace (0.1 - -0.1 - 0.2) with 0 by lra. unfold Rdiv. ring.
Defined.

(** * Further properties of the formulas *)

(** ** Expected trade length *)

Lemma trade_length_value_additive self a b m :
  PI / mu self * (scaled_erfi self b - scaled_erfi self a)
  + PI / mu self * (scaled_erfi self m - scaled_erfi self b)
  = PI / mu self * (scaled_erfi self m - scaled_erfi self a).
Proof. ring. Qed.

(** X1.  Expected trade lengths add up along adjacent bands: under valid
    parameters the lengths from [a] to [b] and from [b] to [m] sum to the
    length from [a] to [m]. *)
Theorem expected_trade_length_additive self a b m :
  0 < mu self -> sigma self <> 0 ->
  exists t1 t2 t,
    expected_trade_length self a b = Ret t1
    /\ expected_trade_length self b m = Ret t2
    /\ expected_trade_length self a m = Ret t
    /\ t1 + t2 = t.
Proof.
  intros Hmu Hs.
  exists (PI / mu self * (scaled_erfi self b - scaled_erfi self a)),
         (PI / mu self * (scaled_erfi self m - scaled_erfi self b)),
         (PI / mu self * (scaled_erfi self m - scaled_erfi self a)).
  rewrite !expected_trade_length_ok by assumption.
  repeat split. apply trade_length_value_additive.
Qed.

Lemma expected_trade_length_additive_witness :
  exists t1 t2 t,
    expected_trade_length unit_model (-1) 0 = Ret t1
    /\ expected_trade_length unit_model 0 1 = Ret t2
    /\ expected_trade_length unit_model (-1) 1 = Ret t
    /\ t1 + t2 = t.
Proof.
  apply (expected_trade_length_additive unit_model (-1) 0 1); cbn; lra.
Defined.

(** X2.  The expected trade length does not depend on the units of the
    spread: after [x |-> k x + d] with [k <> 0], applied to [theta], [sigma]
    (scaled only) and both thresholds, the outcome is the same, failures
    included. *)
Theorem expected_trade_length_rescale self k d a m :
  k <> 0 ->
  expected_trade_length (rescale k d self) (k * a + d) (k * m + d)
  = expected_trade_length self a m.
Proof.
  intros Hk.
  unfold expected_trade_length, _erfi_scaler, py_div, np_sqrt, np_div.
  cbn [mu theta sigma rescale].
  destruct (Req_dec_T (mu self) 0); [reflexivity |].
  destruct (Rlt_dec (mu self) 0); [reflexivity |].
  cbn [bind].
  destruct (Req_dec_T (k * sigma self) 0) as [E | E];
    destruct (Req_dec_T (sigma self) 0) as [E' | E']; cbn [bind].
  - reflexivity.
  - exfalso. apply Rmult_integral in E. tauto.
  - exfalso. apply E. rewrite E'. ring.
  - do 2 f_equal. f_equal; f_equal; field; tauto.
Qed.

Lemma expected_trade_length_rescale_witness :
  expected_trade_length (rescale 100 5 unit_model) (100 * -1 + 5) (100 * 1 + 5)
  = expected_trade_length unit_model (-1) 1.
Proof.
  apply (expected_trade_length_rescale unit_model 100 5 (-1) 1). lra.
Defined.





(** ** Expected return *)



(** X6.  Equal thresholds give neither a number nor an exception: under valid
    parameters [expected_return a a c] divides by the expected trade length
    [0] and leaves the finite numbers, for every cost. *)
Theorem expected_return_equal_thresholds self a c :
  0 < mu self -> sigma self <> 0 ->
  expected_trade_length self a a = Ret 0
  /\ expected_return self a a c = NonFinite.
Proof.
  intros Hmu Hs.
  assert (Ht : expected_trade_length self a a = Ret 0).
  { rewrite expected_trade_length_ok by assumption. f_equal. ring. }
  split; [exact Ht |].
  unfold expected_return. rewrite Ht. cbn [bind]. apply np_div_zero.
Qed.

Lemma expected_return_equal_thresholds_witness :
  expected_trade_length unit_model 0.5 0.5 = Ret 0
  /\ expected_return unit_model 0.5 0.5 0.1 = NonFinite.
Proof.
  apply (expected_return_equal_thresholds unit_model 0.5 0.1); cbn; lra.
Defined.

(** ** Variances *)



Lemma trade_length_variance_swap gamma digamma self a m :
  trade_length_variance gamma digamma self m a
  = omap Ropp (trade_length_variance gamma digamma self a m).
Proof.
  unfold trade_length_variance, omap, py_div, np_sqrt, np_div.
  destruct (Rlt_dec (2 * mu self) 0); [reflexivity |].
  destruct (Req_dec_T (sigma self) 0); [reflexivity |].
  cbn [bind].
  destruct (Req_dec_T (mu self ^ 2) 0) as [E | E]; [reflexivity |].
  cbn [bind]. f_equal. field. intros H0. apply E. rewrite H0. ring.
Qed.

(** X8.  The trade-length "variance" is antisymmetric in its thresholds:
    [trade_length_variance m a] is the opposite of
    [trade_length_variance a m] (failing as it does, when it fails), and under
    valid parameters [trade_length_variance a a] is [0]. *)
Theorem trade_length_variance_antisym gamma digamma self a m :
  trade_length_variance gamma digamma self m a
  = omap Ropp (trade_length_variance gamma digamma self a m)
  /\ (0 < mu self -> sigma self <> 0 ->
      trade_length_variance gamma digamma self a a = Ret 0).
Proof.
  split; [apply trade_length_variance_swap |].
  intros Hmu Hs. rewrite trade_length_variance_ok by assumption.
  f_equal. unfold Rdiv. ring.
Qed.

Lemma trade_length_variance_antisym_witness :
  trade_length_variance gamma_on_halves digamma_on_halves half_model 0.1 0.1 = Ret 0.
Proof.
  apply (proj2 (trade_length_variance_antisym gamma_on_halves digamma_on_halves
                  half_model 0.1 0.1)); cbn; lra.
Defined.

(** ** The helpers [W1] and [W2] *)

Lemma infinite_sum_opp A l :
  infinite_sum A l -> infinite_sum (fun n => - A n) (- l).
Proof.
  intros H.
  apply infinite_sum_ext with (A := fun n => (fun _ => 0) n - A n).
  - intros n. ring.
  - replace (- l) with (0 - l) by ring.
    apply infinite_sum_minus; [| exact H].
    intros eps Heps. exists 0%nat. intros n _.
    replace (sum_f_R0 (fun _ => 0) n) with 0.
    + unfold Rdist. rewrite Rminus_diag, Rabs_R0. exact Heps.
    + induction n as [| n IH]; cbn [sum_f_R0]; [reflexivity | lra].
Qed.

Lemma pow_opp_odd y n : (- y) ^ S (2 * n) = - y ^ S (2 * n).
Proof.
  replace (- y) with (-1 * y) by ring.
  rewrite Rpow_mult_distr, pow_1_odd. ring.
Qed.

Lemma common_term_opp gamma x :
  common_term gamma (- x) = fun k => common_term gamma x k * (-1) ^ k.
Proof.
  apply functional_extensionality. intros k. unfold common_term.
  replace (1.414 * - x) with (-1 * (1.414 * x)) by ring.
  rewrite Rpow_mult_distr. unfold Rdiv. ring.
Qed.

Lemma common_term_alt_opp gamma x :
  (fun k => common_term gamma (- x) k * (-1) ^ k) = common_term gamma x.
Proof.
  apply functional_extensionality. intros k. rewrite common_term_opp.
  rewrite Rmult_assoc, <- Rpow_mult_distr.
  replace (-1 * -1) with 1 by ring. rewrite pow1. ring.
Qed.

Lemma _w1_odd gamma x : _w1 gamma (- x) = - _w1 gamma x.
Proof.
  unfold _w1. rewrite common_term_alt_opp, common_term_opp. ring.
Qed.

Lemma middle_term_opp gamma digamma x n :
  series_from (middle_term gamma digamma (- x)) 1 n
  = - series_from (middle_term gamma digamma x) 1 n.
Proof.
  unfold series_from, middle_term.
  replace (2 * (1 + n) - 1)%nat with (S (2 * n)) by lia.
  replace (1.414 * - x) with (- (1.414 * x)) by ring.
  rewrite pow_opp_odd. unfold Rdiv. ring.
Qed.

Lemma _w2_odd gamma digamma x l :
  infinite_sum (fun n => W2_term gamma digamma x (S n)) l ->
  _w2 gamma digamma x = l /\ _w2 gamma digamma (- x) = - l.
Proof.
  intros Hl. split; [now apply _w2_series |].
  unfold _w2. apply nsum_spec.
  apply infinite_sum_ext with (A := fun n => - W2_term gamma digamma x (S n)).
  - intros n. rewrite middle_term_opp. reflexivity.
  - now apply infinite_sum_opp.
Qed.

Lemma _w2_zero gamma digamma : _w2 gamma digamma 0 = 0.
Proof.
  unfold _w2. apply nsum_spec.
  intros eps Heps. exists 0%nat. intros n _.
  replace (sum_f_R0 (series_from (middle_term gamma digamma 0) 1) n) with 0.
  - unfold Rdist. rewrite Rminus_diag, Rabs_R0. exact Heps.
  - assert (Hz : forall i, series_from (middle_term gamma digamma 0) 1 i = 0).
    { intros i. unfold series_from, middle_term.
      replace (2 * (1 + i) - 1)%nat with (S (2 * i)) by lia.
      rewrite Rmult_0_r, pow_i by lia. unfold Rdiv. ring. }
    induction n as [| n IH]; cbn [sum_f_R0]; rewrite Hz; [reflexivity | lra].
Qed.

(** X9.  Whatever [gamma] and [digamma] are, [W1] is an odd function and
    [W1 0 = W2 0 = 0]; [W2] is odd as well wherever its series converges. *)
Theorem w_helpers_odd gamma digamma x :
  _w1 gamma (- x) = - _w1 gamma x
  /\ _w1 gamma 0 = 0
  /\ _w2 gamma digamma 0 = 0
  /\ (forall l, infinite_sum (fun n => W2_term gamma digamma x (S n)) l ->
                _w2 gamma digamma (- x) = - _w2 gamma digamma x).
Proof.
  split; [apply _w1_odd |]. split; [| split; [apply _w2_zero |]].
  - assert (H := _w1_odd gamma 0). rewrite Ropp_0 in H. lra.
  - intros l Hl. destruct (_w2_odd gamma digamma x l Hl) as [-> ->]. reflexivity.
Qed.

Lemma w_helpers_odd_witness :
  _w1 gamma_on_halves (- (0.3)) = - _w1 gamma_on_halves 0.3
  /\ _w2 gamma_on_halves digamma_on_halves (- (0.3))
     = - _w2 gamma_on_halves digamma_on_halves 0.3.
Proof.
  destruct (w_helpers_odd gamma_on_halves digamma_on_halves 0.3) as (H1 & _ & _ & H2).
  split; [exact H1 |].
  destruct (psi_series_cv (1.414 * 0.3)) as (l & Hl & _).
  apply (H2 l).
  apply infinite_sum_ext with (2 := Hl). intros n.
  symmetry. apply (middle_term_halves 0.3 n).
Defined.

Lemma normalized_threshold_mirror self a :
  sigma self <> 0 ->
  normalized_threshold self (2 * theta self - a) = - normalized_threshold self a.
Proof. intros Hs. unfold normalized_threshold. field. exact Hs. Qed.

(** X10.  On a band that is symmetric about [theta], the kind of band both
    optimizers return, the trade-length variance is
    [2 (W2 c - W1 c) / mu^2] with [c] the normalized entry threshold, provided
    the series of [W2] converges at [c]. *)
Theorem trade_length_variance_symmetric_band gamma digamma self a l :
  0 < mu self -> sigma self <> 0 ->
  infinite_sum
    (fun n => W2_term gamma digamma ((a - theta self) * sqrt (2 * mu self) / sigma self)
                      (S n)) l ->
  let c := (a - theta self) * sqrt (2 * mu self) / sigma self in
  trade_length_variance gamma digamma self a (2 * theta self - a)
  = Ret (2 * (_w2 gamma digamma c - _w1 gamma c) / (mu self) ^ 2).
Proof.
  intros Hmu Hs Hl c.
  rewrite trade_length_variance_ok by assumption.
  rewrite (normalized_threshold_mirror self a Hs).
  fold (normalized_threshold self a) in c, Hl. fold c in Hl |- *.
  destruct (_w2_odd gamma digamma c l Hl) as [E1 E2].
  rewrite _w1_odd, E1, E2. f_equal. unfold Rdiv. ring.
Qed.

Lemma trade_length_variance_symmetric_band_witness :
  trade_length_variance gamma_on_halves digamma_on_halves half_model (-0.1)
    (2 * theta half_model - -0.1)
  = Ret (2 * (_w2 gamma_on_halves digamma_on_halves
                ((-0.1 - theta half_model) * sqrt (2 * mu half_model) / sigma half_model)
              - _w1 gamma_on_halves
                  ((-0.1 - theta half_model) * sqrt (2 * mu half_model)
                   / sigma half_model))
         / (mu half_model) ^ 2).
Proof.
  assert (Hmu : 0 < mu half_model) by (cbn; lra).
  assert (Hs : sigma half_model <> 0) by (cbn; lra).
  destruct (psi_series_cv (1.414 * normalized_threshold half_model (-0.1)))
    as (l & Hl & _).
  apply (trade_length_variance_symmetric_band gamma_on_halves digamma_on_halves
           half_model (-0.1) l Hmu Hs).
  apply infinite_sum_ext with (2 := Hl). intros n.
  symmetry. apply (middle_term_halves (normalized_threshold half_model (-0.1)) n).
Defined.

Lemma half_square_bound y : Rabs y <= 1 / 2 -> Rabs y ^ 2 <= / 4.
Proof. intros H. assert (H0 := Rabs_pos y). nra. Qed.

(** X11.  With the gamma and digamma functions at the half-integers, [W1 x]
    has the sign of [x] for every [x <> 0], and [W2 x] the opposite sign as
    long as [|1.414 x| <= 1/2]. *)
Theorem w_helpers_sign x :
  x <> 0 ->
  0 < _w1 gamma_on_halves x * x
  /\ (Rabs (1.414 * x) <= 1 / 2 ->
      _w2 gamma_on_halves digamma_on_halves x * x < 0).
Proof.
  intros Hx. split.
  - destruct (Rtotal_order x 0) as [Hneg | [H0 | Hpos]]; [| contradiction |].
    + assert (H := _w1_halves_neg x Hneg). nra.
    + assert (H := _w1_halves_pos x Hpos). nra.
  - intros Hy. apply _w2_halves_sign; [exact Hx |].
    now apply half_square_bound.
Qed.

Lemma w_helpers_sign_witness :
  0 < _w1 gamma_on_halves (-0.2) * -0.2
  /\ _w2 gamma_on_halves digamma_on_halves (-0.2) * -0.2 < 0.
Proof.
  destruct (w_helpers_sign (-0.2) ltac:(lra)) as [H1 H2].
  split; [exact H1 |]. apply H2.
  rewrite <- Rabs_Ropp, Rabs_pos_eq; lra.
Defined.

(** X12.  With the gamma and digamma functions at the half-integers the
    trade-length variance is positive on every band that contains [theta] in
    its interior and whose normalized thresholds [c] satisfy
    [|1.414 c| <= 1/2] (valid parameters, [sigma > 0]). *)
Theorem trade_length_variance_pos self a m :
  0 < mu self -> 0 < sigma self -> a < theta self -> theta self < m ->
  Rabs (1.414 * normalized_threshold self a) <= 1 / 2 ->
  Rabs (1.414 * normalized_threshold self m) <= 1 / 2 ->
  exists v,
    trade_length_variance gamma_on_halves digamma_on_halves self a m = Ret v
    /\ 0 < v.
Proof.
  intros Hmu Hs Ha Hm Hba Hbm.
  eexists. split; [apply trade_length_variance_ok; lra |].
  assert (Hq : 0 < sqrt (2 * mu self)) by (apply sqrt_lt_R0; lra).
  assert (Hi : 0 < / sigma self) by now apply Rinv_0_lt_compat.
  assert (Hca : normalized_threshold self a < 0).
  { unfold normalized_threshold, Rdiv.
    assert (H : (a - theta self) * sqrt (2 * mu self) < 0) by nra. nra. }
  assert (Hcm : 0 < normalized_threshold self m).
  { unfold normalized_threshold, Rdiv.
    assert (H : 0 < (m - theta self) * sqrt (2 * mu self)) by nra. nra. }
  set (ca := normalized_threshold self a) in *.
  set (cm := normalized_threshold self m) in *.
  assert (H1 := _w1_halves_pos cm Hcm).
  assert (H2 := _w1_halves_neg ca Hca).
  assert (H3 := _w2_halves_sign cm ltac:(lra) (half_square_bound _ Hbm)).
  assert (H4 := _w2_halves_sign ca ltac:(lra) (half_square_bound _ Hba)).
  assert (H3' : _w2 gamma_on_halves digamma_on_halves cm < 0) by nra.
  assert (H4' : 0 < _w2 gamma_on_halves digamma_on_halves ca) by nra.
  apply Rdiv_lt_0_compat; [lra | apply pow_lt; exact Hmu].
Qed.

Lemma trade_length_variance_pos_witness :
  exists v,
    trade_length_variance gamma_on_halves digamma_on_halves half_model (-0.2) 0.3 = Ret v
    /\ 0 < v.
Proof.
  apply (trade_length_variance_pos half_model (-0.2) 0.3); try (cbn; lra).
  - rewrite half_model_normalized, <- Rabs_Ropp, Rabs_pos_eq; lra.
  - rewrite half_model_normalized, Rabs_pos_eq; lra.
Defined.

(** ** Sharpe ratio *)

Lemma sharpe_ratio_ok gamma digamma self a m c rf t v :
  expected_trade_length self a m = Ret t -> t <> 0 ->
  trade_length_variance gamma digamma self a m = Ret v ->
  0 < (m - a - c) ^ 2 * v / t ^ 3 ->
  sharpe_ratio gamma digamma self a m c rf
  = Ret (((m - a - c) / t - rf / t) / sqrt ((m - a - c) ^ 2 * v / t ^ 3)).
Proof.
  intros Ht Hne Hv Hpos.
  unfold sharpe_ratio. rewrite Ht. cbn [bind].
  rewrite np_div_ok by exact Hne. cbn [bind].
  rewrite (expected_return_ok self a m c t Ht Hne).
  rewrite (return_variance_ok gamma digamma self a m c t v Ht Hne Hv). cbn [bind].
  rewrite np_sqrt_ok by lra. cbn [bind].
  apply np_div_ok. assert (H := sqrt_lt_R0 _ Hpos). lra.
Qed.

(** X13.  When the expected trade length is positive and the variance of the
    return is positive, the Sharpe ratio is strictly decreasing in the
    risk-free rate, positive exactly when [rf < m - a - c] and zero exactly at
    [rf = m - a - c]. *)
Theorem sharpe_ratio_sign gamma digamma self a m c rf rf' t v :
  expected_trade_length self a m = Ret t -> 0 < t ->
  trade_length_variance gamma digamma self a m = Ret v ->
  0 < (m - a - c) ^ 2 * v / t ^ 3 ->
  rf < rf' ->
  exists s s',
    sharpe_ratio gamma digamma self a m c rf = Ret s
    /\ sharpe_ratio gamma digamma self a m c rf' = Ret s'
    /\ s' < s
    /\ (0 < s <-> rf < m - a - c)
    /\ (s = 0 <-> rf = m - a - c).
Proof.
  intros Ht Htpos Hv Hpos Hrf.
  rewrite !(sharpe_ratio_ok gamma digamma self a m c _ t v Ht) by (trivial; lra).
  assert (Hq := sqrt_lt_R0 _ Hpos).
  set (q := sqrt ((m - a - c) ^ 2 * v / t ^ 3)) in *.
  assert (Hi : 0 < / (t * q))
    by (apply Rinv_0_lt_compat; now apply Rmult_lt_0_compat).
  assert (E : forall r, ((m - a - c) / t - r / t) / q = (m - a - c - r) * / (t * q)).
  { intros r. field. lra. }
  eexists. eexists. split; [reflexivity |]. split; [reflexivity |].
  rewrite !E. repeat split; try nra.
Qed.

Lemma sharpe_ratio_sign_witness :
  exists s s',
    sharpe_ratio gamma_on_halves digamma_on_halves half_model (-0.1) 0.1 0.01 0.02
    = Ret s
    /\ sharpe_ratio gamma_on_halves digamma_on_halves half_model (-0.1) 0.1 0.01 0.03
       = Ret s'
    /\ s' < s
    /\ (0 < s <-> 0.02 < 0.1 - -0.1 - 0.01)
    /\ (s = 0 <-> 0.02 = 0.1 - -0.1 - 0.01).
Proof.
  assert (Hmu : 0 < mu half_model) by (cbn; lra).
  assert (Hsg : 0 < sigma half_model) by (cbn; lra).
  assert (Ht := expected_trade_length_ok half_model (-0.1) 0.1 Hmu ltac:(lra)).
  assert (Htpos := trade_length_value_pos half_model (-0.1) 0.1 Hmu Hsg ltac:(lra)).
  set (t := PI / mu half_model
            * (scaled_erfi half_model 0.1 - scaled_erfi half_model (-0.1))) in *.
  destruct half_model_variance_pos as (v & Hv & Hvpos).
  assert (Hpos : 0 < (0.1 - -0.1 - 0.01) ^ 2 * v / t ^ 3).
  { apply Rdiv_lt_0_compat; [| now apply pow_lt].
    apply Rmult_lt_0_compat; [| exact Hvpos]. lra. }
  apply (sharpe_ratio_sign gamma_on_halves digamma_on_halves half_model
           (-0.1) 0.1 0.01 0.02 0.03 t v Ht Htpos Hv Hpos). lra.
Defined.

(** ** The first-order condition *)

Lemma erfi_term_le_exp_term y n : 0 <= y -> erfi_term y n <= exp_term y n.
Proof.
  intros Hy. unfold erfi_term, exp_term, Rdiv. rewrite Rmult_comm.
  apply Rmult_le_compat_l; [now apply pow_le | apply erfi_coef_le_exp].
Qed.

Lemma erfi_sum_exp_gap u : 2 / 3 * (u * u) <= exp (u * u) - erfi_sum u.
Proof.
  assert (Hy := Rle_0_sqr u). unfold Rsqr in Hy.
  assert (Hd : infinite_sum (fun n => exp_term (u * u) n - erfi_term (u * u) n)
                 (exp (u * u) - erfi_sum u)).
  { apply infinite_sum_minus; [apply exp_term_sum | apply erfi_sum_cv]. }
  assert (Hpos : forall n, 0 <= exp_term (u * u) n - erfi_term (u * u) n).
  { intros n. assert (Hn := erfi_term_le_exp_term (u * u) n Hy). lra. }
  assert (H := infinite_sum_ge_partial _ _ 1 Hd Hpos).
  cbn [sum_f_R0] in H. unfold exp_term, erfi_term, erfi_coef in H. cbn in H.
  eapply Rle_trans; [| exact H]. right. field.
Qed.

Lemma first_order_condition_pos self c a :
  0 < mu self -> sigma self <> 0 -> 0 < c -> theta self - c / 2 <= a ->
  0 < first_order_condition self c a.
Proof.
  intros Hmu Hs Hc Ha.
  rewrite first_order_condition_reduced by assumption. cbv zeta.
  set (d := a - theta self). set (u := d * sqrt (mu self) / sigma self).
  assert (Hgap := erfi_sum_exp_gap u). assert (H1 := erfi_sum_ge_1 u).
  assert (Hu := Rle_0_sqr u). unfold Rsqr in Hu.
  assert (He := exp_pos (u * u)).
  assert (Hd : - c / 2 <= d) by (unfold d; lra).
  destruct (Rle_lt_dec 0 d) as [Hpos | Hneg]; nra.
Qed.

(** X14.  For valid parameters and a positive cost, the function handed to
    the root finder is positive at every entry threshold [a >= theta - c/2];
    so each of its roots lies strictly below [theta - c/2]. *)
Theorem equation_positive_above self c a :
  0 < mu self -> sigma self <> 0 -> 0 < c ->
  (theta self - c / 2 <= a ->
   exists f, equation self c a = Ret f /\ 0 < f)
  /\ (equation self c a = Ret 0 -> a < theta self - c / 2).
Proof.
  intros Hmu Hs Hc. rewrite equation_ok by assumption. split.
  - intros Ha. eexists. split; [reflexivity |].
    now apply first_order_condition_pos.
  - intros E. injection E as E.
    destruct (Rlt_le_dec a (theta self - c / 2)) as [Hlt | Hge]; [exact Hlt |].
    assert (H := first_order_condition_pos self c a Hmu Hs Hc Hge). lra.
Qed.

Lemma equation_positive_above_witness :
  exists f, equation unit_model 1 0 = Ret f /\ 0 < f.
Proof.
  apply (proj1 (equation_positive_above unit_model 1 0 ltac:(cbn; lra)
                  ltac:(cbn; lra) ltac:(lra))).
  cbn. lra.
Defined.

Lemma unit_root_cost_pos : 0 < unit_root_cost.
Proof.
  unfold unit_root_cost.
  assert (Hgap := erfi_sum_exp_gap 1). rewrite Rmult_1_r in Hgap.
  assert (He := exp_pos 1).
  assert (H : erfi_sum 1 / exp 1 < 1).
  { apply Rmult_lt_reg_r with (exp 1); [exact He |].
    unfold Rdiv. rewrite Rmult_assoc, Rinv_l by lra. lra. }
  lra.
Qed.

Lemma unit_root_cost_root : equation unit_model unit_root_cost (-1) = Ret 0.
Proof.
  rewrite equation_ok by (cbn; lra). f_equal.
  rewrite first_order_condition_reduced by (cbn; lra). cbv zeta.
  cbn [mu theta sigma unit_model]. rewrite sqrt_1.
  replace ((-1 - 0) * 1 / 1) with (- (1)) by field.
  rewrite (erfi_sum_sqr_eq (- (1)) 1) by ring.
  replace (- (1) * - (1)) with 1 by ring.
  unfold unit_root_cost. assert (He := exp_pos 1). field. lra.
Qed.

(** X15.  When the root finder reports a root of the function it was given
    (valid parameters, [sigma > 0], cost [c > 0]), the returned pair is a
    proper band: [a < theta - c/2], [a < m], its width exceeds the cost, and
    its expected return is positive. *)
Theorem maximize_expected_return_band _hybrd self c r :
  0 < mu self -> 0 < sigma self -> 0 < c ->
  _hybrd (equation self c) (theta self - c - 0.01) = Ret r ->
  equation self c (root_x r) = Ret 0 ->
  exists a m e,
    get_threshold_by_maximize_expected_return _hybrd self c = Ret (a, m)
    /\ a < theta self - c / 2
    /\ a < m
    /\ c < m - a
    /\ expected_return self a m c = Ret e
    /\ 0 < e.
Proof.
  intros Hmu Hs Hc Hr Hroot.
  assert (Hs' : sigma self <> 0) by lra.
  assert (Hg : get_threshold_by_maximize_expected_return _hybrd self c
               = Ret (root_x r, 2 * theta self - root_x r)).
  { apply maximize_expected_return_ok. replace 1e-2 with 0.01 by lra. exact Hr. }
  assert (Ha : root_x r < theta self - c / 2).
  { rewrite equation_ok in Hroot by assumption. injection Hroot as E.
    destruct (Rlt_le_dec (root_x r) (theta self - c / 2)) as [Hlt | Hge]; [exact Hlt |].
    assert (H := first_order_condition_pos self c _ Hmu Hs' Hc Hge). lra. }
  set (a := root_x r) in *. set (m := 2 * theta self - a).
  assert (Ham : a < m) by (unfold m; lra).
  assert (Ht := expected_trade_length_ok self a m Hmu Hs').
  assert (Htpos := trade_length_value_pos self a m Hmu Hs Ham).
  exists a, m. eexists.
  split; [exact Hg |]. split; [exact Ha |]. split; [exact Ham |].
  split; [unfold m; lra |].
  split; [apply (expected_return_ok self a m c _ Ht); lra |].
  apply Rdiv_lt_0_compat; [unfold m; lra | exact Htpos].
Qed.

Lemma maximize_expected_return_band_witness :
  exists a m e,
    get_threshold_by_maximize_expected_return (hybrd_stops_at (-1) 1) unit_model
      unit_root_cost = Ret (a, m)
    /\ a < theta unit_model - unit_root_cost / 2
    /\ a < m
    /\ unit_root_cost < m - a
    /\ expected_return unit_model a m unit_root_cost = Ret e
    /\ 0 < e.
Proof.
  apply (maximize_expected_return_band (hybrd_stops_at (-1) 1) unit_model
           unit_root_cost {| root_x := -1; ier := 1 |}).
  - cbn; lra.
  - cbn; lra.
  - exact unit_root_cost_pos.
  - reflexivity.
  - exact unit_root_cost_root.
Defined.

(** X16.  Without transaction cost the function handed to the root finder
    vanishes at [theta] and nowhere else (valid parameters); a root finder that
    reports its root makes the optimizer return the empty band
    [(theta, theta)], at which the expected return leaves the finite
    numbers. *)
Theorem maximize_expected_return_zero_cost _hybrd self r :
  0 < mu self -> sigma self <> 0 ->
  _hybrd (equation self 0) (theta self - 0 - 0.01) = Ret r ->
  equation self 0 (root_x r) = Ret 0 ->
  (forall a, equation self 0 a = Ret 0 <-> a = theta self)
  /\ get_threshold_by_maximize_expected_return _hybrd self 0
     = Ret (theta self, theta self)
  /\ expected_return self (theta self) (theta self) 0 = NonFinite.
Proof.
  intros Hmu Hs Hr Hroot.
  assert (Hiff : forall a, equation self 0 a = Ret 0 <-> a = theta self).
  { intros a. rewrite equation_ok by assumption.
    rewrite first_order_condition_reduced by assumption. cbv zeta.
    set (d := a - theta self). set (u := d * sqrt (mu self) / sigma self).
    assert (Hgap := erfi_sum_exp_gap u).
    assert (Hq : 0 < sqrt (mu self)) by now apply sqrt_lt_R0.
    split.
    - intros E. injection E as E.
      destruct (Req_dec_T d 0) as [Hd | Hd]; [unfold d in Hd; lra |].
      exfalso.
      assert (Hu : u <> 0).
      { unfold u, Rdiv. intros H0.
        apply Rmult_integral in H0. destruct H0 as [H0 | H0].
        - apply Rmult_integral in H0. lra.
        - now apply (Rinv_neq_0_compat (sigma self)). }
      assert (Huu : 0 < u * u) by nra.
      assert (Hprod : 2 * d * (exp (u * u) - erfi_sum u) = 0) by lra.
      apply Rmult_integral in Hprod. lra.
    - intros ->. f_equal. unfold d. ring. }
  split; [exact Hiff |].
  assert (Ea : root_x r = theta self) by now apply Hiff.
  split.
  - rewrite (maximize_expected_return_ok _hybrd self 0 r)
      by (replace 1e-2 with 0.01 by lra; exact Hr).
    rewrite Ea. do 2 f_equal. ring.
  - unfold expected_return.
    rewrite expected_trade_length_ok by assumption.
    replace (PI / mu self * (scaled_erfi self (theta self) - scaled_erfi self (theta self)))
      with 0 by ring.
    cbn [bind]. apply np_div_zero.
Qed.

Lemma maximize_expected_return_zero_cost_witness :
  get_threshold_by_maximize_expected_return (hybrd_stops_at 0 1) unit_model 0
  = Ret (theta unit_model, theta unit_model)
  /\ expected_return unit_model (theta unit_model) (theta unit_model) 0 = NonFinite.
Proof.
  assert (Hmu : 0 < mu unit_model) by (cbn; lra).
  assert (Hs : sigma unit_model <> 0) by (cbn; lra).
  assert (H0 : equation unit_model 0 0 = Ret 0).
  { rewrite equation_ok by assumption. f_equal. unfold first_order_condition.
    rewrite unit_model_scaled_erfi, erfi_0. cbn [mu theta sigma unit_model]. ring. }
  apply (maximize_expected_return_zero_cost (hybrd_stops_at 0 1) unit_model
           {| root_x := 0; ier := 1 |} Hmu Hs eq_refl H0).
Defined.

(** ** The objective of the Sharpe-ratio optimizer *)

(** X17.  The objective handed to the simplex minimizer is not a finite
    number at [a = theta], where the band [(a, 2 theta - a)] is empty (valid
    parameters); with [rf + c = 0] this is the initial guess
    [theta - rf - c] itself. *)
Theorem negative_sharpe_ratio_at_theta gamma digamma self c rf :
  0 < mu self -> sigma self <> 0 ->
  negative_sharpe_ratio gamma digamma self c rf (theta self) = NonFinite
  /\ (rf + c = 0 ->
      negative_sharpe_ratio gamma digamma self c rf (theta self - rf - c) = NonFinite).
Proof.
  intros Hmu Hs.
  assert (H : negative_sharpe_ratio gamma digamma self c rf (theta self) = NonFinite).
  { unfold negative_sharpe_ratio, sharpe_ratio.
    rewrite expected_trade_length_ok by assumption.
    replace (2 * theta self - theta self) with (theta self) by ring.
    replace (PI / mu self * (scaled_erfi self (theta self) - scaled_erfi self (theta self)))
      with 0 by ring.
    cbn [bind]. rewrite np_div_zero. reflexivity. }
  split; [exact H |].
  intros E. replace (theta self - rf - c) with (theta self) by lra. exact H.
Qed.

Lemma negative_sharpe_ratio_at_theta_witness :
  negative_sharpe_ratio gamma_on_halves digamma_on_halves unit_model 0 0
    (theta unit_model - 0 - 0)
  = NonFinite.
Proof.
  apply (proj2 (negative_sharpe_ratio_at_theta gamma_on_halves digamma_on_halves
                  unit_model 0 0 ltac:(cbn; lra) ltac:(cbn; lra))).
  lra.
Defined.

(** * The plotting wrappers *)

Lemma plt_plot_same_length xs ys :
  length xs = length ys ->
  plt_plot plt_figure xs ys
  = Done {| lines := [{| xdata := xs; ydata := ys |}];
            title := ""; ylabel := ""; xlabel := "" |}.
Proof.
  intros E. unfold plt_plot. rewrite E, Nat.eqb_refl. reflexivity.
Qed.

Lemma thresholds_c_loop_done _hybrd self c_list acc l :
  thresholds_c_loop _hybrd self c_list acc = Done l ->
  exists new,
    l = acc ++ new
    /\ Forall2 (fun c a => exists m,
                  get_threshold_by_maximize_expected_return _hybrd self c = Ret (a, m))
               c_list new.
Proof.
  revert acc. induction c_list as [| c rest IH]; intros acc H; cbn in H.
  - injection H as <-. exists []. split; [now rewrite app_nil_r | constructor].
  - destruct (get_threshold_by_maximize_expected_return _hybrd self c)
      as [[a m] | | e] eqn:Hc; cbn in H; try discriminate.
    destruct (IH _ H) as (new & -> & Hnew).
    exists (a :: new). split; [now rewrite <- app_assoc |].
    constructor; [now exists m | exact Hnew].
Qed.

Lemma thresholds_c_loop_total _hybrd self c_list acc :
  (forall c, In c c_list ->
     exists p, get_threshold_by_maximize_expected_return _hybrd self c = Ret p) ->
  exists l, thresholds_c_loop _hybrd self c_list acc = Done l.
Proof.
  revert acc. induction c_list as [| c rest IH]; intros acc H; cbn.
  - now exists acc.
  - destruct (H c (or_introl eq_refl)) as [[a m] ->]. cbn.
    apply IH. intros c' Hc'. apply H. now right.
Qed.

(** X19.  [plot_optimal_trading_thresholds_c] draws one line whose abscissas
    are the costs given and whose ordinates are, cost by cost, the entry
    thresholds the return-maximizing optimizer returns, so the two always have
    the same length and Matplotlib's [ValueError] cannot occur.  A figure is
    obtained whenever the optimizer returns a number for every cost of the
    list; the empty list gives a figure with an empty line. *)
Theorem plot_optimal_trading_thresholds_c_spec _hybrd self c_list :
  (forall fig,
     plot_optimal_trading_thresholds_c _hybrd self c_list = Done fig ->
     exists a_list,
       fig = one_line_figure c_list a_list "Optimal Trade Entry vs Trans. Costs" "a" "c"
       /\ Forall2 (fun c a => exists m,
                     get_threshold_by_maximize_expected_return _hybrd self c
                     = Ret (a, m))
                  c_list a_list)
  /\ ((forall c, In c c_list ->
         exists p, get_threshold_by_maximize_expected_return _hybrd self c = Ret p) ->
      exists fig, plot_optimal_trading_thresholds_c _hybrd self c_list = Done fig)
  /\ plot_optimal_trading_thresholds_c _hybrd self c_list <> RaisedValueError
  /\ plot_optimal_trading_thresholds_c _hybrd self []
     = Done (one_line_figure [] [] "Optimal Trade Entry vs Trans. Costs" "a" "c").
Proof.
  assert (Hshape : forall l,
            thresholds_c_loop _hybrd self c_list [] = Done l ->
            plot_optimal_trading_thresholds_c _hybrd self c_list
            = Done (one_line_figure c_list l
                      "Optimal Trade Entry vs Trans. Costs" "a" "c")
            /\ Forall2 (fun c a => exists m,
                          get_threshold_by_maximize_expected_return _hybrd self c
                          = Ret (a, m)) c_list l).
  { intros l Hl.
    destruct (thresholds_c_loop_done _ _ _ _ _ Hl) as (new & -> & Hnew).
    cbn [app] in *. split; [| exact Hnew].
    unfold plot_optimal_trading_thresholds_c. rewrite Hl. cbn [rbind].
    rewrite plt_plot_same_length by (apply (Forall2_length Hnew)).
    reflexivity. }
  split; [| split; [| split]].
  - intros fig Hfig.
    destruct (thresholds_c_loop _hybrd self c_list []) as [l | | e |] eqn:Hl;
      try (unfold plot_optimal_trading_thresholds_c in Hfig; rewrite Hl in Hfig;
           discriminate).
    destruct (Hshape l eq_refl) as [Hplot Hall].
    exists l. split; [congruence | exact Hall].
  - intros Hall.
    destruct (thresholds_c_loop_total _hybrd self c_list [] Hall) as [l Hl].
    eexists. apply (Hshape l Hl).
  - destruct (thresholds_c_loop _hybrd self c_list []) as [l | | e |] eqn:Hl.
    + rewrite (proj1 (Hshape l eq_refl)). discriminate.
    + unfold plot_optimal_trading_thresholds_c. rewrite Hl. discriminate.
    + unfold plot_optimal_trading_thresholds_c. rewrite Hl. discriminate.
    + exfalso. clear Hshape. revert Hl. generalize (@nil R).
      induction c_list as [| c rest IH]; intros acc Hl; cbn in Hl; [discriminate |].
      destruct (get_threshold_by_maximize_expected_return _hybrd self c)
        as [[a m] | | e] eqn:Hc; cbn in Hl; try discriminate.
      now apply (IH _ Hl).
  - reflexivity.
Qed.

Lemma plot_optimal_trading_thresholds_c_spec_witness :
  exists fig a_list,
    plot_optimal_trading_thresholds_c hybrd_returns_guess unit_model [0.1; 0.2]
    = Done fig
    /\ fig = one_line_figure [0.1; 0.2] a_list
               "Optimal Trade Entry vs Trans. Costs" "a" "c"
    /\ length a_list = 2%nat.
Proof.
  destruct (plot_optimal_trading_thresholds_c_spec hybrd_returns_guess unit_model
              [0.1; 0.2]) as (Hdone & Htotal & _).
  destruct Htotal as [fig Hfig].
  { intros c _. eexists. reflexivity. }
  destruct (Hdone fig Hfig) as (a_list & Efig & Hall).
  exists fig, a_list. split; [exact Hfig |]. split; [exact Efig |].
  symmetry. apply (Forall2_length Hall).
Defined.

Lemma maximum_expected_return_loop_done _hybrd self c_list acc_a acc_m al ml :
  maximum_expected_return_loop _hybrd self c_list acc_a acc_m = Done (al, ml) ->
  exists ps,
    al = acc_a ++ map fst ps /\ ml = acc_m ++ map snd ps
    /\ Forall2 (fun c p => get_threshold_by_maximize_expected_return _hybrd self c
                           = Ret p) c_list ps.
Proof.
  revert acc_a acc_m. induction c_list as [| c rest IH]; intros acc_a acc_m H; cbn in H.
  - injection H as <- <-. exists []. cbn. rewrite !app_nil_r. repeat split. constructor.
  - destruct (get_threshold_by_maximize_expected_return _hybrd self c)
      as [[a m] | | e] eqn:Hc; cbn in H; try discriminate.
    destruct (IH _ _ H) as (ps & -> & -> & Hps).
    exists ((a, m) :: ps). cbn. rewrite <- !app_assoc. repeat split.
    constructor; assumption.
Qed.

Lemma maximum_expected_return_loop_total _hybrd self c_list acc_a acc_m :
  (forall c, In c c_list ->
     exists p, get_threshold_by_maximize_expected_return _hybrd self c = Ret p) ->
  exists al ml, maximum_expected_return_loop _hybrd self c_list acc_a acc_m
                = Done (al, ml).
Proof.
  revert acc_a acc_m. induction c_list as [| c rest IH]; intros acc_a acc_m H; cbn.
  - now exists acc_a, acc_m.
  - destruct (H c (or_introl eq_refl)) as [[a m] ->]. cbn.
    apply IH. intros c' Hc'. apply H. now right.
Qed.

Lemma np_vectorize_same_length func xs ys zs :
  xs <> [] -> length ys = length xs -> length zs = length xs ->
  np_vectorize func xs ys zs = vectorize_loop func xs ys zs.
Proof.
  intros Hne Hy Hz. unfold np_vectorize, broadcast.
  destruct xs as [| x0 xs]; [contradiction |].
  destruct ys as [| y0 ys]; [discriminate |].
  destruct zs as [| z0 zs]; [discriminate |].
  rewrite Hy, Hz, !Nat.max_id, !Nat.eqb_refl. reflexivity.
Qed.

Lemma vectorize_loop_pairs func (get : R -> outcome (R * R)) cs ps :
  Forall2 (fun c p => get c = Ret p) cs ps ->
  (forall ys,
     vectorize_loop func (map fst ps) (map snd ps) cs = Done ys ->
     Forall2 (fun c y => exists a m, get c = Ret (a, m) /\ func a m c = Ret y) cs ys)
  /\ ((forall c a m, In c cs -> get c = Ret (a, m) -> exists y, func a m c = Ret y) ->
      exists ys, vectorize_loop func (map fst ps) (map snd ps) cs = Done ys).
Proof.
  induction 1 as [| c [a m] cs ps Hc Hrest [IHdone IHtotal]]; cbn.
  - split; [| intros _; now exists []].
    intros ys H. injection H as <-. constructor.
  - split.
    + intros ys H.
      destruct (func a m c) as [y | | e] eqn:Hy; cbn in H; try discriminate.
      destruct (vectorize_loop func (map fst ps) (map snd ps) cs)
        as [vs | | e |] eqn:Hvs; cbn in H; try discriminate.
      injection H as <-. constructor; [| now apply IHdone].
      exists a, m. now split.
    + intros Hall.
      destruct (Hall c a m (or_introl eq_refl) Hc) as [y ->]. cbn.
      destruct IHtotal as [vs ->].
      { intros c' a' m' Hin. apply Hall. now right. }
      cbn. now eexists.
Qed.

Lemma vectorize_loop_length func xs ys zs vs :
  vectorize_loop func xs ys zs = Done vs ->
  length ys = length xs -> length zs = length xs -> length vs = length xs.
Proof.
  revert ys zs vs. induction xs as [| x0 xs IH]; intros ys zs vs H Hy Hz.
  - cbn in H. injection H as <-. reflexivity.
  - destruct ys as [| y0 ys]; [discriminate |].
    destruct zs as [| z0 zs]; [discriminate |].
    cbn in H. destruct (func x0 y0 z0); cbn in H; try discriminate.
    destruct (vectorize_loop func xs ys zs) as [vs' | | e |] eqn:Hvs; cbn in H;
      try discriminate.
    injection H as <-. cbn. f_equal. apply (IH ys zs); trivial; cbn in *; lia.
Qed.

Lemma vectorize_loop_no_value_error func xs ys zs :
  vectorize_loop func xs ys zs <> RaisedValueError.
Proof.
  revert ys zs. induction xs as [| x0 xs IH]; intros ys zs; cbn; [discriminate |].
  destruct ys as [| y0 ys]; [discriminate |].
  destruct zs as [| z0 zs]; [discriminate |].
  destruct (func x0 y0 z0); cbn; try discriminate.
  specialize (IH ys zs).
  destruct (vectorize_loop func xs ys zs); cbn; congruence.
Qed.

Lemma maximum_expected_return_loop_no_value_error _hybrd self c_list acc_a acc_m :
  maximum_expected_return_loop _hybrd self c_list acc_a acc_m <> RaisedValueError.
Proof.
  revert acc_a acc_m. induction c_list as [| c rest IH]; intros acc_a acc_m; cbn;
    [discriminate |].
  destruct (get_threshold_by_maximize_expected_return _hybrd self c)
    as [[a m] | | e]; cbn; try discriminate.
  apply IH.
Qed.

(** X20.  [plot_maximum_expected_return] fails with [ValueError] on the empty
    list of costs, as [np.vectorize] refuses inputs of size zero, and raises
    it on no other list.  Otherwise its line has the costs as abscissas and,
    cost by cost, the expected return of the band [(a, 2 theta - a)] the
    optimizer returned for that cost; a figure is obtained when the optimizer
    returns a number for every cost and every such expected return is a
    number. *)
Theorem plot_maximum_expected_return_spec _hybrd self c_list :
  plot_maximum_expected_return _hybrd self [] = RaisedValueError
  /\ (c_list <> [] -> plot_maximum_expected_return _hybrd self c_list <> RaisedValueError)
  /\ (forall fig,
        plot_maximum_expected_return _hybrd self c_list = Done fig ->
        exists ys,
          fig = one_line_figure c_list ys "Max E[Return] vs Trans. Costs"
                  "${\mu}^* (a, c)$" "c"
          /\ Forall2 (fun c y => exists a,
                        get_threshold_by_maximize_expected_return _hybrd self c
                        = Ret (a, 2 * theta self - a)
                        /\ expected_return self a (2 * theta self - a) c = Ret y)
                     c_list ys)
  /\ (c_list <> [] ->
      (forall c, In c c_list ->
         exists p, get_threshold_by_maximize_expected_return _hybrd self c = Ret p) ->
      (forall c a m, In c c_list ->
         get_threshold_by_maximize_expected_return _hybrd self c = Ret (a, m) ->
         exists y, expected_return self a m c = Ret y) ->
      exists fig, plot_maximum_expected_return _hybrd self c_list = Done fig).
Proof.
  split; [reflexivity |].
  assert (Hrun : forall al ml,
            maximum_expected_return_loop _hybrd self c_list [] [] = Done (al, ml) ->
            exists ps,
              al = map fst ps /\ ml = map snd ps
              /\ Forall2 (fun c p => get_threshold_by_maximize_expected_return
                                       _hybrd self c = Ret p) c_list ps
              /\ length ml = length al /\ length c_list = length al).
  { intros al ml H.
    destruct (maximum_expected_return_loop_done _ _ _ _ _ _ _ H) as (ps & -> & -> & Hps).
    exists ps. cbn [app]. repeat split; trivial.
    - now rewrite !length_map.
    - rewrite length_map. apply (Forall2_length Hps). }
  assert (Hplot : forall al ml ys,
            maximum_expected_return_loop _hybrd self c_list [] [] = Done (al, ml) ->
            c_list <> [] ->
            vectorize_loop (expected_return self) al ml c_list = Done ys ->
            plot_maximum_expected_return _hybrd self c_list
            = Done (one_line_figure c_list ys "Max E[Return] vs Trans. Costs"
                      "${\mu}^* (a, c)$" "c")).
  { intros al ml ys H Hne Hys.
    destruct (Hrun al ml H) as (ps & _ & _ & _ & Hlm & Hlc).
    unfold plot_maximum_expected_return. rewrite H. cbn [rbind].
    rewrite np_vectorize_same_length, Hys; trivial.
    - cbn [rbind].
      rewrite plt_plot_same_length; [reflexivity |].
      rewrite (vectorize_loop_length _ _ _ _ _ Hys); trivial.
    - intros ->. destruct c_list; [contradiction | discriminate]. }
  split; [| split].
  - intros Hne Hv. unfold plot_maximum_expected_return in Hv.
    destruct (maximum_expected_return_loop _hybrd self c_list [] [])
      as [[al ml] | | e |] eqn:H; cbn [rbind] in Hv; try discriminate.
    + destruct (Hrun al ml eq_refl) as (ps & _ & _ & _ & Hlm & Hlc).
      rewrite np_vectorize_same_length in Hv; trivial.
      * destruct (vectorize_loop (expected_return self) al ml c_list)
          as [ys | | e |] eqn:Hys; cbn [rbind] in Hv; try discriminate.
        -- rewrite plt_plot_same_length in Hv; [discriminate |].
           rewrite (vectorize_loop_length _ _ _ _ _ Hys); trivial.
        -- now apply (vectorize_loop_no_value_error _ _ _ _ Hys).
      * intros ->. destruct c_list; [contradiction | discriminate].
    + now apply (maximum_expected_return_loop_no_value_error _ _ _ _ _ H).
  - intros fig Hfig.
    destruct c_list as [| c0 rest] eqn:Ecs; [discriminate |]. rewrite <- Ecs in *.
    assert (Hne : c_list <> []) by (rewrite Ecs; discriminate).
    pose proof Hfig as Hfig0.
    unfold plot_maximum_expected_return in Hfig.
    destruct (maximum_expected_return_loop _hybrd self c_list [] [])
      as [[al ml] | | e |] eqn:H; cbn [rbind] in Hfig; try discriminate.
    destruct (Hrun al ml eq_refl) as (ps & -> & -> & Hps & Hlm & Hlc).
    rewrite np_vectorize_same_length in Hfig; trivial;
      [| intros E; rewrite E in Hlc; destruct c_list; [contradiction | discriminate]].
    destruct (vectorize_loop (expected_return self) (map fst ps) (map snd ps) c_list)
      as [ys | | e |] eqn:Hys; cbn [rbind] in Hfig; try discriminate.
    exists ys. split.
    + pose proof (Hplot _ _ ys eq_refl Hne Hys) as Hp. congruence.
    + assert (Hf := proj1 (vectorize_loop_pairs (expected_return self) _ _ _ Hps) ys Hys).
      revert Hf. apply Forall2_impl. intros c y (a & m & Hc & Hy).
      destruct (maximize_expected_return_inv _ _ _ _ _ Hc) as [-> _].
      now exists a.
  - intros Hne Hall Her.
    destruct (maximum_expected_return_loop_total _hybrd self c_list [] [] Hall)
      as (al & ml & H).
    destruct (Hrun al ml H) as (ps & -> & -> & Hps & _).
    destruct (proj2 (vectorize_loop_pairs (expected_return self) _ _ _ Hps) Her)
      as [ys Hys].
    eexists. apply (Hplot _ _ ys H Hne Hys).
Qed.

Lemma plot_maximum_expected_return_spec_witness :
  plot_maximum_expected_return hybrd_returns_guess unit_model [] = RaisedValueError
  /\ exists fig ys,
       plot_maximum_expected_return hybrd_returns_guess unit_model [0.1] = Done fig
       /\ fig = one_line_figure [0.1] ys "Max E[Return] vs Trans. Costs"
                  "${\mu}^* (a, c)$" "c"
       /\ length ys = 1%nat.
Proof.
  destruct (plot_maximum_expected_return_spec hybrd_returns_guess unit_model [0.1])
    as (Hempty & _ & Hdone & Htotal).
  split; [exact Hempty |].
  destruct Htotal as [fig Hfig].
  { discriminate. }
  { intros c _. eexists. reflexivity. }
  { intros c a m [<- | []] H.
    injection H as <- <-. cbn [theta unit_model].
    eexists. apply expected_return_ok.
    - apply expected_trade_length_ok; cbn; lra.
    - apply expected_trade_length_nonzero; cbn; lra. }
  destruct (Hdone fig Hfig) as (ys & Efig & Hall).
  exists fig, ys. split; [exact Hfig |]. split; [exact Efig |].
  symmetry. apply (Forall2_length Hall).
Defined.

Lemma thresholds_rf_loop_done gamma digamma _nm self c rf_list acc l :
  thresholds_rf_loop gamma digamma _nm self c rf_list acc = Done l ->
  exists new,
    l = acc ++ new
    /\ Forall2 (fun rf a =>
                  get_threshold_by_maximize_sharpe_ratio gamma digamma _nm self c rf
                  = Ret (a, 2 * theta self - a))
               rf_list new.
Proof.
  revert acc. induction rf_list as [| rf rest IH]; intros acc H; cbn in H.
  - injection H as <-. exists []. split; [now rewrite app_nil_r | constructor].
  - destruct (get_threshold_by_maximize_sharpe_ratio gamma digamma _nm self c rf)
      as [[a m] | | e] eqn:Hc; cbn in H; try discriminate.
    destruct (IH _ H) as (new & -> & Hnew).
    exists (a :: new). split; [now rewrite <- app_assoc |].
    constructor; [| exact Hnew].
    now destruct (maximize_sharpe_ratio_inv _ _ _ _ _ _ _ _ Hc) as [<- _].
Qed.

Lemma thresholds_rf_loop_total gamma digamma _nm self c rf_list acc :
  (forall rf, In rf rf_list ->
     exists p, get_threshold_by_maximize_sharpe_ratio gamma digamma _nm self c rf
               = Ret p) ->
  exists l, thresholds_rf_loop gamma digamma _nm self c rf_list acc = Done l.
Proof.
  revert acc. induction rf_list as [| rf rest IH]; intros acc H; cbn.
  - now exists acc.
  - destruct (H rf (or_introl eq_refl)) as [[a m] ->]. cbn.
    apply IH. intros rf' Hrf'. apply H. now right.
Qed.

(** X21.  [plot_optimal_trading_thresholds_rf] draws one line whose abscissas
    are the risk-free rates given and whose ordinates are, rate by rate, the
    entry thresholds [a] of the bands [(a, 2 theta - a)] the Sharpe-ratio
    optimizer returns at the fixed cost [c].  A figure of finite numbers is
    obtained exactly when the optimizer returns a number for every rate of the
    list, and Matplotlib's [ValueError] cannot occur. *)
Theorem plot_optimal_trading_thresholds_rf_spec gamma digamma _nm self c rf_list :
  (forall fig,
     plot_optimal_trading_thresholds_rf gamma digamma _nm self c rf_list = Done fig ->
     exists a_list,
       fig = one_line_figure rf_list a_list "Optimal Trade Entry vs Risk−free Rate"
               "a" "rf"
       /\ Forall2 (fun rf a =>
                     get_threshold_by_maximize_sharpe_ratio gamma digamma _nm self c rf
                     = Ret (a, 2 * theta self - a))
                  rf_list a_list)
  /\ ((forall rf, In rf rf_list ->
         exists p, get_threshold_by_maximize_sharpe_ratio gamma digamma _nm self c rf
                   = Ret p) <->
      exists fig,
        plot_optimal_trading_thresholds_rf gamma digamma _nm self c rf_list = Done fig)
  /\ plot_optimal_trading_thresholds_rf gamma digamma _nm self c rf_list
     <> RaisedValueError.
Proof.
  assert (Hshape : forall l,
            thresholds_rf_loop gamma digamma _nm self c rf_list [] = Done l ->
            plot_optimal_trading_thresholds_rf gamma digamma _nm self c rf_list
            = Done (one_line_figure rf_list l "Optimal Trade Entry vs Risk−free Rate"
                      "a" "rf")
            /\ Forall2 (fun rf a =>
                          get_threshold_by_maximize_sharpe_ratio gamma digamma _nm self c rf
                          = Ret (a, 2 * theta self - a))
                       rf_list l).
  { intros l H.
    destruct (thresholds_rf_loop_done _ _ _ _ _ _ _ _ H) as (new & -> & Hnew).
    cbn [app] in *. split; [| exact Hnew].
    unfold plot_optimal_trading_thresholds_rf. rewrite H. cbn [rbind].
    rewrite plt_plot_same_length by apply (Forall2_length Hnew). reflexivity. }
  split; [| split].
  - intros fig Hfig.
    destruct (thresholds_rf_loop gamma digamma _nm self c rf_list []) as [l | | e |] eqn:H;
      try (unfold plot_optimal_trading_thresholds_rf in Hfig; rewrite H in Hfig;
           discriminate).
    destruct (Hshape l eq_refl) as [Hp Hall].
    exists l. split; [congruence | exact Hall].
  - split.
    + intros Hall.
      destruct (thresholds_rf_loop_total gamma digamma _nm self c rf_list [] Hall)
        as [l H].
      destruct (Hshape l H) as [Hp _]. eexists. exact Hp.
    + intros [fig Hfig] rf Hin.
      destruct (thresholds_rf_loop gamma digamma _nm self c rf_list []) as [l | | e |] eqn:H;
        try (unfold plot_optimal_trading_thresholds_rf in Hfig; rewrite H in Hfig;
             discriminate).
      destruct (Hshape l eq_refl) as [_ Hall].
      clear - Hall Hin. induction Hall as [| rf0 a0 rest l' H0 Hrest IH].
      * destruct Hin.
      * destruct Hin as [<- | Hin]; [eexists; exact H0 | now apply IH].
  - intros Hv.
    destruct (thresholds_rf_loop gamma digamma _nm self c rf_list []) as [l | | e |] eqn:H.
    + destruct (Hshape l eq_refl) as [Hp _]. congruence.
    + unfold plot_optimal_trading_thresholds_rf in Hv. rewrite H in Hv. discriminate.
    + unfold plot_optimal_trading_thresholds_rf in Hv. rewrite H in Hv. discriminate.
    + clear - H. revert H. generalize (@nil R).
      induction rf_list as [| rf rest IH]; intros acc H; cbn in H; [discriminate |].
      destruct (get_threshold_by_maximize_sharpe_ratio gamma digamma _nm self c rf)
        as [[a m] | | e]; cbn in H; try discriminate.
      apply (IH _ H).
Qed.

Lemma plot_optimal_trading_thresholds_rf_spec_witness :
  exists fig a_list,
    plot_optimal_trading_thresholds_rf gamma_on_halves digamma_on_halves
      neldermead_returns_guess half_model 0.01 [0; 0.02] = Done fig
    /\ fig = one_line_figure [0; 0.02] a_list "Optimal Trade Entry vs Risk−free Rate"
               "a" "rf"
    /\ length a_list = 2%nat.
Proof.
  destruct (plot_optimal_trading_thresholds_rf_spec gamma_on_halves digamma_on_halves
              neldermead_returns_guess half_model 0.01 [0; 0.02])
    as (Hdone & [Htotal _] & _).
  destruct Htotal as [fig Hfig].
  { intros rf _. eexists. reflexivity. }
  destruct (Hdone fig Hfig) as (a_list & Efig & Hall).
  exists fig, a_list. split; [exact Hfig |]. split; [exact Efig |].
  symmetry. apply (Forall2_length Hall).
Defined.

Lemma maximum_sharpe_ratio_loop_done gamma digamma _nm self c rf_list acc l :
  maximum_sharpe_ratio_loop gamma digamma _nm self c rf_list acc = Done l ->
  exists new,
    l = acc ++ new
    /\ Forall2 (fun rf s => exists a,
                  get_threshold_by_maximize_sharpe_ratio gamma digamma _nm self c rf
                  = Ret (a, 2 * theta self - a)
                  /\ sharpe_ratio gamma digamma self a (2 * theta self - a) c rf = Ret s)
               rf_list new.
Proof.
  revert acc. induction rf_list as [| rf rest IH]; intros acc H; cbn in H.
  - injection H as <-. exists []. split; [now rewrite app_nil_r | constructor].
  - destruct (get_threshold_by_maximize_sharpe_ratio gamma digamma _nm self c rf)
      as [[a m] | | e] eqn:Hc; cbn in H; try discriminate.
    destruct (sharpe_ratio gamma digamma self a m c rf) as [s | | e] eqn:Hs;
      cbn in H; try discriminate.
    destruct (IH _ H) as (new & -> & Hnew).
    exists (s :: new). split; [now rewrite <- app_assoc |].
    constructor; [| exact Hnew].
    destruct (maximize_sharpe_ratio_inv _ _ _ _ _ _ _ _ Hc) as [-> _].
    now exists a.
Qed.

Lemma maximum_sharpe_ratio_loop_total gamma digamma _nm self c rf_list acc :
  (forall rf, In rf rf_list ->
     exists a m s,
       get_threshold_by_maximize_sharpe_ratio gamma digamma _nm self c rf = Ret (a, m)
       /\ sharpe_ratio gamma digamma self a m c rf = Ret s) ->
  exists l, maximum_sharpe_ratio_loop gamma digamma _nm self c rf_list acc = Done l.
Proof.
  revert acc. induction rf_list as [| rf rest IH]; intros acc H; cbn.
  - now exists acc.
  - destruct (H rf (or_introl eq_refl)) as (a & m & s & -> & Hs). cbn.
    rewrite Hs. cbn.
    apply IH. intros rf' Hrf'. apply H. now right.
Qed.

Lemma maximum_sharpe_ratio_loop_no_value_error gamma digamma _nm self c rf_list acc :
  maximum_sharpe_ratio_loop gamma digamma _nm self c rf_list acc <> RaisedValueError.
Proof.
  revert acc. induction rf_list as [| rf rest IH]; intros acc; cbn; [discriminate |].
  destruct (get_threshold_by_maximize_sharpe_ratio gamma digamma _nm self c rf)
    as [[a m] | | e]; cbn; try discriminate.
  destruct (sharpe_ratio gamma digamma self a m c rf); cbn; try discriminate.
  apply IH.
Qed.

(** X22.  [plot_maximum_sharpe_ratio] draws one line whose abscissas are the
    risk-free rates given and whose ordinates are, rate by rate, the Sharpe
    ratio at the band [(a, 2 theta - a)] the optimizer returns for that rate.
    A figure of finite numbers is obtained exactly when, for every rate, the
    optimizer returns a number and the Sharpe ratio there is a number; no
    [ValueError] occurs, and unlike [plot_maximum_expected_return] the empty
    list gives a figure with an empty line. *)
Theorem plot_maximum_sharpe_ratio_spec gamma digamma _nm self c rf_list :
  (forall fig,
     plot_maximum_sharpe_ratio gamma digamma _nm self c rf_list = Done fig ->
     exists s_list,
       fig = one_line_figure rf_list s_list "Max Sharpe Ratio vs Risk−free Rate"
               "r'$S^* (a, c, r)$'" "rf"
       /\ Forall2 (fun rf s => exists a,
                     get_threshold_by_maximize_sharpe_ratio gamma digamma _nm self c rf
                     = Ret (a, 2 * theta self - a)
                     /\ sharpe_ratio gamma digamma self a (2 * theta self - a) c rf
                        = Ret s)
                  rf_list s_list)
  /\ ((forall rf, In rf rf_list ->
         exists a m s,
           get_threshold_by_maximize_sharpe_ratio gamma digamma _nm self c rf
           = Ret (a, m)
           /\ sharpe_ratio gamma digamma self a m c rf = Ret s) <->
      exists fig, plot_maximum_sharpe_ratio gamma digamma _nm self c rf_list = Done fig)
  /\ plot_maximum_sharpe_ratio gamma digamma _nm self c rf_list <> RaisedValueError
  /\ plot_maximum_sharpe_ratio gamma digamma _nm self c []
     = Done (one_line_figure [] [] "Max Sharpe Ratio vs Risk−free Rate"
               "r'$S^* (a, c, r)$'" "rf").
Proof.
  assert (Hshape : forall l,
            maximum_sharpe_ratio_loop gamma digamma _nm self c rf_list [] = Done l ->
            plot_maximum_sharpe_ratio gamma digamma _nm self c rf_list
            = Done (one_line_figure rf_list l "Max Sharpe Ratio vs Risk−free Rate"
                      "r'$S^* (a, c, r)$'" "rf")
            /\ Forall2 (fun rf s => exists a,
                          get_threshold_by_maximize_sharpe_ratio gamma digamma _nm self c rf
                          = Ret (a, 2 * theta self - a)
                          /\ sharpe_ratio gamma digamma self a (2 * theta self - a) c rf
                             = Ret s)
                       rf_list l).
  { intros l H.
    destruct (maximum_sharpe_ratio_loop_done _ _ _ _ _ _ _ _ H) as (new & -> & Hnew).
    cbn [app] in *. split; [| exact Hnew].
    unfold plot_maximum_sharpe_ratio. rewrite H. cbn [rbind].
    rewrite plt_plot_same_length by apply (Forall2_length Hnew). reflexivity. }
  split; [| split; [| split]].
  - intros fig Hfig.
    destruct (maximum_sharpe_ratio_loop gamma digamma _nm self c rf_list [])
      as [l | | e |] eqn:H;
      try (unfold plot_maximum_sharpe_ratio in Hfig; rewrite H in Hfig; discriminate).
    destruct (Hshape l eq_refl) as [Hp Hall].
    exists l. split; [congruence | exact Hall].
  - split.
    + intros Hall.
      destruct (maximum_sharpe_ratio_loop_total gamma digamma _nm self c rf_list [] Hall)
        as [l H].
      destruct (Hshape l H) as [Hp _]. eexists. exact Hp.
    + intros [fig Hfig] rf Hin.
      destruct (maximum_sharpe_ratio_loop gamma digamma _nm self c rf_list [])
        as [l | | e |] eqn:H;
        try (unfold plot_maximum_sharpe_ratio in Hfig; rewrite H in Hfig; discriminate).
      destruct (Hshape l eq_refl) as [_ Hall].
      clear - Hall Hin. induction Hall as [| rf0 s0 rest l' H0 Hrest IH].
      * destruct Hin.
      * destruct Hin as [<- | Hin]; [| now apply IH].
        destruct H0 as (a & Ha & Hs). now exists a, (2 * theta self - a), s0.
  - intros Hv.
    destruct (maximum_sharpe_ratio_loop gamma digamma _nm self c rf_list [])
      as [l | | e |] eqn:H.
    + destruct (Hshape l eq_refl) as [Hp _]. congruence.
    + unfold plot_maximum_sharpe_ratio in Hv. rewrite H in Hv. discriminate.
    + unfold plot_maximum_sharpe_ratio in Hv. rewrite H in Hv. discriminate.
    + now apply (maximum_sharpe_ratio_loop_no_value_error _ _ _ _ _ _ _ H).
  - reflexivity.
Qed.

Lemma plot_maximum_sharpe_ratio_spec_witness :
  exists fig s_list,
    plot_maximum_sharpe_ratio gamma_on_halves digamma_on_halves
      (neldermead_stops_at (-0.1) true) half_model 0.01 [0.02; 0.03] = Done fig
    /\ fig = one_line_figure [0.02; 0.03] s_list "Max Sharpe Ratio vs Risk−free Rate"
               "r'$S^* (a, c, r)$'" "rf"
    /\ length s_list = 2%nat.
Proof.
  destruct (plot_maximum_sharpe_ratio_spec gamma_on_halves digamma_on_halves
              (neldermead_stops_at (-0.1) true) half_model 0.01 [0.02; 0.03])
    as (Hdone & [Htotal _] & _).
  destruct Htotal as [fig Hfig].
  { intros rf _. exists (-0.1), (2 * 0 - -0.1).
    assert (Hmu : 0 < mu half_model) by (cbn; lra).
    assert (Hsg : 0 < sigma half_model) by (cbn; lra).
    assert (Ht := expected_trade_length_ok half_model (-0.1) 0.1 Hmu ltac:(lra)).
    assert (Htpos := trade_length_value_pos half_model (-0.1) 0.1 Hmu Hsg ltac:(lra)).
    set (t := PI / mu half_model
              * (scaled_erfi half_model 0.1 - scaled_erfi half_model (-0.1))) in *.
    destruct half_model_variance_pos as (v & Hv & Hvpos).
    assert (Hpos : 0 < (0.1 - -0.1 - 0.01) ^ 2 * v / t ^ 3).
    { apply Rdiv_lt_0_compat; [| now apply pow_lt].
      apply Rmult_lt_0_compat; [| exact Hvpos]. lra. }
    replace (2 * 0 - -0.1) with 0.1 by lra.
    eexists. split.
    - unfold get_threshold_by_maximize_sharpe_ratio, minimize, neldermead_stops_at.
      cbn. do 2 f_equal. lra.
    - apply (sharpe_ratio_ok _ _ _ _ _ _ _ t v Ht ltac:(lra) Hv Hpos). }
  destruct (Hdone fig Hfig) as (s_list & Efig & Hall).
  exists fig, s_list. split; [exact Hfig |]. split; [exact Efig |].
  symmetry. apply (Forall2_length Hall).
Defined.
